(** * pymerger: the dependency sorter ([pymerger/sorter.py])

    A shallow embedding of [DependencySorter] and the properties of its
    module registry, import resolution and depth-first topological sort.

    Modelling conventions.
    - Python [str] is [string]; [os.sep] and [os.path.relpath] belong to the
      platform and are parameters of the registry section.
    - [module_to_file] is a Python [dict] whose keys are iterated, so it is
      an association list in insertion order with unique keys.
    - [dep_graph], [visited] and [temp_mark] are only looked up, so they are
      a [gmap] and [gset]s.  A dependency [Set[str]] is iterated by [visit];
      CPython gives no order for that, so the order is the parameter
      [set_iter] of the sorter section.
    - Exceptions are the [Raise] outcome; [print] appends to a list of
      output lines.  The interpreter's recursion limit is not modelled. *)

From Stdlib Require Import Ascii String.
From stdpp Require Import gmap strings list.

Open Scope string_scope.
Open Scope list_scope.
Open Scope nat_scope.
Open Scope stdpp_scope.

(** ** Outcomes of a Python call *)

Inductive exn : Type :=
  | StopIteration
  | ValueError (msg : string)
  | KeyError (key : string).

(** [OutOfFuel] is the only outcome with no Python counterpart: the
    recursion of [visit] is bounded by a fuel argument, and the sorter is
    shown never to exhaust it. *)
Inductive outcome (A : Type) : Type :=
  | Return (a : A)
  | Raise (e : exn)
  | OutOfFuel.
Arguments Return {A} a.
Arguments Raise {A} e.
Arguments OutOfFuel {A}.

(** A call that may print: its outcome and the lines it wrote. *)
Definition Py (A : Type) : Type := outcome A * list string.

Definition raise {A} (e : exn) : Py A := (Raise e, []).
Definition print (line : string) : Py unit := (Return tt, [line]).

#[global] Instance Py_ret : MRet Py := fun A a => (Return a, []).

#[global] Instance Py_bind : MBind Py := fun A B k m =>
  match m with
  | (Return a, out) => let '(r, out') := k a in (r, out ++ out')
  | (Raise e, out) => (Raise e, out)
  | (OutOfFuel, out) => (OutOfFuel, out)
  end.

(** ** Strings *)

Definition char_in (c : ascii) (chars : string) : bool :=
  bool_decide (c ∈ list_ascii_of_string chars).

(** [str.rstrip(chars)]: drops the longest suffix made of characters of
    [chars] (a set of characters, not a suffix). *)
Fixpoint rstrip (chars : string) (s : string) : string :=
  match s with
  | EmptyString => EmptyString
  | String c s' =>
      match rstrip chars s' with
      | EmptyString => if char_in c chars then EmptyString else String c EmptyString
      | r => String c r
      end
  end.

(** [str.replace(old, new)] for one-character [old] and [new]. *)
Fixpoint replace (old new : ascii) (s : string) : string :=
  match s with
  | EmptyString => EmptyString
  | String c s' =>
      String (if bool_decide (c = old) then new else c) (replace old new s')
  end.

(** [str.split(sep)] for a one-character separator; never empty. *)
Fixpoint split (sep : ascii) (s : string) : list string :=
  match s with
  | EmptyString => [EmptyString]
  | String c s' =>
      if bool_decide (c = sep) then EmptyString :: split sep s'
      else match split sep s' with
           | h :: t => String c h :: t
           | [] => [String c EmptyString]
           end
  end.

(** [sep.join(parts)]. *)
Fixpoint join (sep : string) (parts : list string) : string :=
  match parts with
  | [] => EmptyString
  | [p] => p
  | p :: ps => p +:+ sep +:+ join sep ps
  end.

(** ** The registry [module_to_file] *)

Abbreviation registry := (list (string * string)).

Definition keys (d : registry) : list string := d.*1.

(** [k in d]. *)
Definition dict_mem (d : registry) (k : string) : bool :=
  bool_decide (k ∈ keys d).

(** [d[k] = v]: an existing key keeps its place in the iteration order. *)
Fixpoint dict_set (d : registry) (k v : string) : registry :=
  match d with
  | [] => [(k, v)]
  | (k', v') :: d' =>
      if bool_decide (k' = k) then (k', v) :: d'
      else (k', v') :: dict_set d' k v
  end.

(** [d[k]], raising [KeyError] when absent. *)
Fixpoint dict_get (d : registry) (k : string) : outcome string :=
  match d with
  | [] => Raise (KeyError k)
  | (k', v') :: d' => if bool_decide (k' = k) then Return v' else dict_get d' k
  end.

(** [next(k for k, v in d.items() if v == filepath)]. *)
Fixpoint next_key (d : registry) (filepath : string) : outcome string :=
  match d with
  | [] => Raise StopIteration
  | (k, v) :: d' =>
      if bool_decide (v = filepath) then Return k else next_key d' filepath
  end.

Section Registry.
(** [os.sep] and [os.path.relpath]. *)
Variable sep : ascii.
Variable relpath : string → string → string.

(** Lines 17-18: the identity derived from one file path. *)
Definition module_name_of (base_dir filepath : string) : string :=
  let rel_path :=
    if bool_decide (base_dir ≠ "") then relpath filepath base_dir
    else filepath in
  rstrip ".py" (replace sep "." rel_path).

(** Lines 14-19. *)
Definition _build_module_mapping (files : list string) (base_dir : string)
  : registry :=
  foldl (fun d filepath => dict_set d (module_name_of base_dir filepath) filepath)
        [] files.
End Registry.

(** The POSIX instance used in the examples: [os.sep = '/'], and a
    [relpath] that is only consulted when a base directory is given. *)
Definition posix_sep : ascii := "/"%char.
Definition relpath_id (path start : string) : string := path.

(** ** Import extraction: [_get_imports_from_file]

    Reading the file and [ast.parse] are the external extractor.  What the
    loop of lines 31-50 looks at in a node is whether it is an [ast.Import]
    (with the names of its aliases), an [ast.ImportFrom] (with [node.module],
    which may be [None], and [node.level]) or anything else. *)

Inductive ast_node : Type :=
  | Import (names : list string)
  | ImportFrom (module : option string) (level : nat)
  | OtherNode.

(** The extractor: [inr nodes] is [ast.walk(ast.parse(source))]; [inl msg]
    is an exception raised by [open], [read] or [ast.parse], with its text. *)
Abbreviation extractor := (string → string + list ast_node).

Abbreviation graph := (gmap string (gset string)).

Definition lift {A} (o : outcome A) : Py A := (o, []).

(** Truth value of [node.module]: [None] and the empty string are false. *)
Definition truthy (module : option string) : bool :=
  match module with
  | Some m => bool_decide (m ≠ "")
  | None => false
  end.

(** Lines 44-48: the absolute name a relative import stands for, or [None]
    when [level] exceeds the number of segments of [module_name]. *)
Definition relative_candidate (module_name module : string) (level : nat)
  : option string :=
  let parts := split "." module_name in
  if bool_decide (level ≤ length parts) then
    let base :=
      if bool_decide (0 < level)
      then join "." (take (length parts - level) parts)
      else "" in
    Some (if bool_decide (base ≠ "") then base +:+ "." +:+ module else module)
  else None.

(** The line printed for a file the extractor fails on. *)
Definition parse_warning (filepath e : string) : string :=
  "Error parsing " +:+ filepath +:+ ": " +:+ e.

Section Imports.
Variable module_to_file : registry.
Variable parse : extractor.

(** Lines 32-50: what one node adds to [dependencies]. *)
Definition import_step (module_name : string) (dependencies : gset string)
    (node : ast_node) : gset string :=
  match node with
  | Import names =>
      foldl (fun deps full_module =>
               if dict_mem module_to_file full_module
               then deps ∪ {[full_module]} else deps)
            dependencies names
  | ImportFrom module level =>
      let m := default "" module in
      if truthy module && dict_mem module_to_file m then
        dependencies ∪ {[m]}
      else if truthy module && bool_decide (0 < level) then
        match relative_candidate module_name m level with
        | Some full_module =>
            if dict_mem module_to_file full_module
            then dependencies ∪ {[full_module]} else dependencies
        | None => dependencies
        end
      else dependencies
  | OtherNode => dependencies
  end.

(** Lines 21-55.  The only statements of the [try] block that can raise
    come before the loop, so a caught exception leaves [dependencies]
    empty. *)
Definition _get_imports_from_file (filepath : string) : Py (gset string) :=
  module_name ← lift (next_key module_to_file filepath);
  match parse filepath with
  | inr nodes => mret (foldl (import_step module_name) ∅ nodes)
  | inl e =>
      _ ← print (parse_warning filepath e);
      mret ∅
  end.

(** Lines 57-62, as a loop over the remaining files that threads
    [self.dep_graph]. *)
Fixpoint build_loop (files : list string) (dep_graph : graph) : Py graph :=
  match files with
  | [] => mret dep_graph
  | filepath :: rest =>
      module_name ← lift (next_key module_to_file filepath);
      dependencies ← _get_imports_from_file filepath;
      build_loop rest (<[module_name := dependencies]> dep_graph)
  end.

Definition _build_dependency_graph (files : list string) : Py graph :=
  build_loop files ∅.
End Imports.

(** ** The sorter: [_topological_sort] and [get_sorted_files] *)

Record sort_state : Type := SortState {
  visited : gset string;
  temp_mark : gset string;
  sorted_modules : list string;
}.

(** A [for] loop whose body may raise. *)
Fixpoint for_each {A S : Type} (body : A → S → outcome S) (xs : list A) (s : S)
  : outcome S :=
  match xs with
  | [] => Return s
  | x :: xs' =>
      match body x s with
      | Return s' => for_each body xs' s'
      | Raise e => Raise e
      | OutOfFuel => OutOfFuel
      end
  end.

Definition cycle_message (node : string) : string :=
  "Circular dependency detected involving " +:+ node.

Section Sorter.
Variable module_to_file : registry.
Variable dep_graph : graph.
(** The order in which a dependency set is iterated. *)
Variable set_iter : gset string → list string.

(** [self.dep_graph[node]] on a [defaultdict(set)]: a missing key reads as
    the empty set (and stays so). *)
Definition deps_of (node : string) : gset string :=
  default ∅ (dep_graph !! node).

(** Lines 70-80. *)
Fixpoint visit (fuel : nat) (node : string) (st : sort_state)
  : outcome sort_state :=
  match fuel with
  | O => OutOfFuel
  | S fuel' =>
      if bool_decide (node ∈ temp_mark st) then
        Raise (ValueError (cycle_message node))
      else if bool_decide (node ∉ visited st) then
        let st1 :=
          SortState (visited st) (temp_mark st ∪ {[node]}) (sorted_modules st) in
        match
          for_each (fun dep s =>
                      if dict_mem module_to_file dep then visit fuel' dep s
                      else Return s)
                   (set_iter (deps_of node)) st1
        with
        | Return st2 =>
            (* [set.remove] raises [KeyError] on a missing element *)
            if bool_decide (node ∈ temp_mark st2) then
              Return (SortState (visited st2 ∪ {[node]})
                                (temp_mark st2 ∖ {[node]})
                                (sorted_modules st2 ++ [node]))
            else Raise (KeyError node)
        | Raise e => Raise e
        | OutOfFuel => OutOfFuel
        end
      else Return st
  end.

(** The recursion depth never exceeds the number of modules. *)
Definition sort_fuel : nat := S (length module_to_file).

(** Lines 64-86. *)
Definition _topological_sort : outcome (list string) :=
  match
    for_each (fun module s =>
                if bool_decide (module ∉ visited s) then visit sort_fuel module s
                else Return s)
             (keys module_to_file) (SortState ∅ ∅ [])
  with
  | Return st => Return (sorted_modules st)
  | Raise e => Raise e
  | OutOfFuel => OutOfFuel
  end.
End Sorter.

(** [[self.module_to_file[module] for module in sorted_modules]]. *)
Fixpoint paths_of (d : registry) (modules : list string) : outcome (list string) :=
  match modules with
  | [] => Return []
  | m :: ms =>
      match dict_get d m with
      | Return p =>
          match paths_of d ms with
          | Return ps => Return (p :: ps)
          | Raise e => Raise e
          | OutOfFuel => OutOfFuel
          end
      | Raise e => Raise e
      | OutOfFuel => OutOfFuel
      end
  end.

Section Run.
Variable sep : ascii.
Variable relpath : string → string → string.
Variable parse : extractor.
Variable set_iter : gset string → list string.

(** Lines 91-96: the [try] block, for a registry and a built graph. *)
Definition sorted_or_empty (module_to_file : registry) (dep_graph : graph)
  : Py (list string) :=
  match _topological_sort module_to_file dep_graph set_iter with
  | Return sorted => lift (paths_of module_to_file sorted)
  | Raise (ValueError msg) => _ ← print ("Error: " +:+ msg); mret []
  | Raise e => raise e
  | OutOfFuel => lift OutOfFuel
  end.

(** [DependencySorter(files, base_dir).get_sorted_files()]. *)
Definition get_sorted_files (files : list string) (base_dir : string)
  : Py (list string) :=
  let module_to_file := _build_module_mapping sep relpath files base_dir in
  dep_graph ← _build_dependency_graph module_to_file parse files;
  sorted_or_empty module_to_file dep_graph.
End Run.

(** ** Positions in the output *)

(** [l.index(x)], when [x] occurs in [l]. *)
Fixpoint index_of (x : string) (l : list string) : option nat :=
  match l with
  | [] => None
  | y :: l' => if bool_decide (y = x) then Some 0 else S <$> index_of x l'
  end.

(** [d] occurs in [l] at a position before that of [m]. *)
Definition precedes (d m : string) (l : list string) : Prop :=
  ∃ i j, index_of d l = Some i ∧ index_of m l = Some j ∧ i < j.

(** ** The dependency relation the sorter walks *)

(** [m] depends on [d]: [d] is in the stored set of [m] and is a module of
    the registry (line 76 skips anything else). *)
Definition edge (module_to_file : registry) (dep_graph : graph)
    (m d : string) : Prop :=
  d ∈ deps_of dep_graph m ∧ d ∈ keys module_to_file.

Definition on_cycle (module_to_file : registry) (dep_graph : graph)
    (c : string) : Prop :=
  tc (edge module_to_file dep_graph) c c.

Definition acyclic (module_to_file : registry) (dep_graph : graph) : Prop :=
  ∀ c, ¬ on_cycle module_to_file dep_graph c.

(** What holds of the sorter's state between two calls of [visit]: the
    output lists exactly the visited modules, once each, all of them
    registered; no visited module is in progress; and every module of the
    output comes after its dependencies. *)
Record sort_inv (module_to_file : registry) (dep_graph : graph)
    (st : sort_state) : Prop := SortInv {
  inv_visited : ∀ x, x ∈ visited st ↔ x ∈ sorted_modules st;
  inv_nodup : NoDup (sorted_modules st);
  inv_keys : ∀ x, x ∈ sorted_modules st → x ∈ keys module_to_file;
  inv_marks : ∀ x, x ∈ visited st → x ∉ temp_mark st;
  inv_order : ∀ m d, m ∈ sorted_modules st → edge module_to_file dep_graph m d →
                     precedes d m (sorted_modules st);
}.

(** What a call [visit(node)] from state [st] achieves. *)
Definition visit_post (module_to_file : registry) (dep_graph : graph)
    (st : sort_state) (done : string → Prop) (r : outcome sort_state) : Prop :=
  match r with
  | Return st' =>
      sort_inv module_to_file dep_graph st' ∧
      temp_mark st' = temp_mark st ∧
      visited st ⊆ visited st' ∧
      (∀ d, done d → d ∈ visited st')
  | Raise e =>
      ∃ c, e = ValueError (cycle_message c) ∧ on_cycle module_to_file dep_graph c
  | OutOfFuel => False
  end.

(** What [_topological_sort] achieves: an order of all registered modules
    with dependencies first, or a [ValueError] naming a module on a cycle. *)
Definition sort_post (module_to_file : registry) (dep_graph : graph)
    (r : outcome (list string)) : Prop :=
  match r with
  | Return l =>
      NoDup l ∧
      (∀ x, x ∈ l ↔ x ∈ keys module_to_file) ∧
      (∀ m d, m ∈ keys module_to_file → edge module_to_file dep_graph m d →
              precedes d m l)
  | Raise e =>
      ∃ c, e = ValueError (cycle_message c) ∧ on_cycle module_to_file dep_graph c
  | OutOfFuel => False
  end.

(** ** Sample inputs *)

(** A chain: [a] imports [b], [b] imports [c]. *)
Definition chain_registry : registry :=
  [("a", "a.py"); ("b", "b.py"); ("c", "c.py")].
Definition chain_graph : graph :=
  {[ "a" := {[ "b" ]}; "b" := {[ "c" ]}; "c" := ∅ ]}.

(** Two modules importing each other. *)
Definition loop_registry : registry := [("a", "a.py"); ("b", "b.py")].
Definition loop_graph : graph := {[ "a" := {[ "b" ]}; "b" := {[ "a" ]} ]}.

Definition loop_parse : extractor := fun filepath =>
  if bool_decide (filepath = "a.py") then inr [Import ["b"]]
  else if bool_decide (filepath = "b.py") then inr [ImportFrom (Some "a") 0]
  else inr [].

(** A package: [pkg/sub/mod.py] next to [pkg/x.py], [pkg/sub/x.py] and a
    top-level [x.py]. *)
Definition pkg_files : list string :=
  ["pkg/sub/mod.py"; "pkg/x.py"; "pkg/sub/x.py"; "x.py"].
Definition pkg_registry : registry :=
  [("pkg.sub.mod", "pkg/sub/mod.py"); ("pkg.x", "pkg/x.py");
   ("pkg.sub.x", "pkg/sub/x.py"); ("x", "x.py")].

(** The same package without the top-level [x.py]. *)
Definition pkg_registry_inner : registry :=
  [("pkg.sub.mod", "pkg/sub/mod.py"); ("pkg.x", "pkg/x.py");
   ("pkg.sub.x", "pkg/sub/x.py")].

(** An extractor that finds no import anywhere. *)
Definition no_imports : extractor := fun _ => inr [].

(** An extractor that fails on [a.py] and finds [import a] in [b.py]. *)
Definition broken_parse : extractor := fun filepath =>
  if bool_decide (filepath = "a.py") then inl "invalid syntax"
  else if bool_decide (filepath = "b.py") then inr [Import ["a"]]
  else inr [].

(** The diamond: [A] imports [B] and [C], which both import [D]. *)
Definition diamond_registry : registry :=
  [("A", "A.py"); ("B", "B.py"); ("C", "C.py"); ("D", "D.py")].
Definition diamond_graph : graph :=
  {[ "A" := {[ "B"; "C" ]}; "B" := {[ "D" ]}; "C" := {[ "D" ]}; "D" := ∅ ]}.

(** An iteration order that lists the set [{B, C}] as [bc]. *)
Definition iter_bc (bc : list string) (s : gset string) : list string :=
  if bool_decide (s = {[ "B"; "C" ]}) then bc else elements s.

(** [precedes], computed. *)
Definition precedesb (d m : string) (l : list string) : bool :=
  match index_of d l, index_of m l with
  | Some i, Some j => bool_decide (i < j)
  | _, _ => false
  end.

(** The order of a diamond run: [D] first, [A] last, and [B] against [C] as
    the file order has them unless [A] is listed before both, when it is as
    [A]'s dependency set lists them. *)
Definition diamond_check (bc : list string) (reg : registry) : bool :=
  match _topological_sort reg diamond_graph (iter_bc bc) with
  | Return l =>
      precedesb "D" "B" l && precedesb "D" "C" l &&
      precedesb "B" "A" l && precedesb "C" "A" l &&
      bool_decide (precedesb "B" "C" l =
                   if precedesb "A" "B" (keys reg) && precedesb "A" "C" (keys reg)
                   then precedesb "B" "C" bc
                   else precedesb "B" "C" (keys reg))
  | _ => false
  end.

(** ** Unresolved references *)

(** No name that [node] can stand for in module [module_name] is an
    identity of the registry. *)
Definition unresolved (module_to_file : registry) (module_name : string)
    (node : ast_node) : Prop :=
  match node with
  | Import names => ∀ n, n ∈ names → n ∉ keys module_to_file
  | ImportFrom module level =>
      ∀ m, module = Some m →
           (m ∉ keys module_to_file) ∧
           (∀ c, relative_candidate module_name m level = Some c →
                 c ∉ keys module_to_file)
  | OtherNode => True
  end.

(** What [_get_imports_from_file] returns for a registered file. *)
Definition extracted (module_to_file : registry) (parse : extractor)
    (module_name filepath : string) : gset string :=
  match parse filepath with
  | inr nodes => foldl (import_step module_to_file module_name) ∅ nodes
  | inl _ => ∅
  end.

(** ** Further definitions *)

Section RelPath.
Variable relpath : string → string → string.

(** Line 17: the path an identity is derived from. *)
Definition rel_path_of (base_dir filepath : string) : string :=
  if bool_decide (base_dir ≠ "") then relpath filepath base_dir else filepath.
End RelPath.

(** The chain again, with the files listed dependencies first. *)
Definition chain_registry_sorted : registry :=
  [("c", "c.py"); ("b", "b.py"); ("a", "a.py")].

(** An extractor that fails on [a/b.py] and finds no import elsewhere. *)
Definition dup_broken_parse : extractor := fun filepath =>
  if bool_decide (filepath = "a/b.py") then inl "invalid syntax" else inr [].

(** An extractor that finds [import os, a] in [a.py]. *)
Definition self_import_parse : extractor := fun filepath =>
  if bool_decide (filepath = "a.py") then inr [OtherNode; Import ["os"; "a"]]
  else inr [].

(** Lines 52-53 over a whole run: the warnings for the files the extractor
    fails on, in file order. *)
Fixpoint parse_warnings (parse : extractor) (files : list string) : list string :=
  match files with
  | [] => []
  | filepath :: rest =>
      match parse filepath with
      | inl e => parse_warning filepath e :: parse_warnings parse rest
      | inr _ => parse_warnings parse rest
      end
  end.

(** Closed decidable goals are settled by evaluation. *)
Ltac by_computation := apply (bool_decide_unpack _); vm_compute; exact I.

(** * Properties *)

Example module_name_happy :
  module_name_of posix_sep relpath_id "" "happy.py" = "ha".
Proof. vm_compute. reflexivity. Qed.

Example pkg_files_registry :
  _build_module_mapping posix_sep relpath_id pkg_files "" = pkg_registry.
Proof. vm_compute. reflexivity. Qed.

Example module_name_pkg :
  module_name_of posix_sep relpath_id "" "pkg/sub/mod.py" = "pkg.sub.mod".
Proof. vm_compute. reflexivity. Qed.

(** ** Lists and positions *)

Lemma index_of_is_Some x l : x ∈ l → is_Some (index_of x l).
Proof.
  induction l as [|y l IH]; intros Hin; [by apply elem_of_nil in Hin|].
  simpl. case_bool_decide; [by eexists|].
  apply elem_of_cons in Hin as [->|Hin]; [done|].
  destruct (IH Hin) as [i ->]. by eexists.
Qed.

Lemma index_of_elem x l i : index_of x l = Some i → x ∈ l.
Proof.
  revert i. induction l as [|y l IH]; intros i; simpl; [done|].
  case_bool_decide as Hy; [subst; intros _; apply elem_of_cons; by left|].
  destruct (index_of x l) as [k|] eqn:Hk; [|done].
  intros _. apply elem_of_cons. right. by eapply IH.
Qed.

Lemma index_of_lt x l i : index_of x l = Some i → i < length l.
Proof.
  revert i. induction l as [|y l IH]; intros i; simpl; [done|].
  case_bool_decide; [intros [= <-]; lia|].
  destruct (index_of x l) as [k|]; [|done].
  intros [= <-]. specialize (IH k eq_refl). lia.
Qed.

Lemma index_of_app_l x l l' i :
  index_of x l = Some i → index_of x (l ++ l') = Some i.
Proof.
  revert i. induction l as [|y l IH]; intros i; simpl; [done|].
  case_bool_decide; [done|].
  destruct (index_of x l) as [k|]; [|done].
  intros [= <-]. by rewrite (IH k eq_refl).
Qed.

Lemma index_of_snoc_new x l : x ∉ l → index_of x (l ++ [x]) = Some (length l).
Proof.
  induction l as [|y l IH]; intros Hx; simpl.
  - by rewrite bool_decide_eq_true_2.
  - apply not_elem_of_cons in Hx as [Hne Hx].
    rewrite bool_decide_eq_false_2 by done. by rewrite IH.
Qed.

Lemma precedes_app d m l l' : precedes d m l → precedes d m (l ++ l').
Proof.
  intros (i & j & Hi & Hj & Hlt). exists i, j.
  split_and!; [by apply index_of_app_l..|done].
Qed.

Lemma precedes_snoc d m l : d ∈ l → m ∉ l → precedes d m (l ++ [m]).
Proof.
  intros Hd Hm. destruct (index_of_is_Some _ _ Hd) as [i Hi].
  exists i, (length l). split_and!.
  - by apply index_of_app_l.
  - by apply index_of_snoc_new.
  - by eapply index_of_lt.
Qed.

Lemma precedes_trans a b c l : precedes a b l → precedes b c l → precedes a c l.
Proof.
  intros (i & j & Hi & Hj & Hlt) (j' & k & Hj' & Hk & Hlt').
  exists i, k. split_and!; [done..|]. rewrite Hj in Hj'. simplify_eq. lia.
Qed.

Lemma precedes_irrefl a l : ¬ precedes a a l.
Proof. intros (i & j & Hi & Hj & Hlt). rewrite Hi in Hj. simplify_eq. lia. Qed.

(** ** The depth-first walk *)

Section SorterCorrect.
Variable module_to_file : registry.
Variable dep_graph : graph.
Variable set_iter : gset string → list string.
Hypothesis set_iter_elem : ∀ s x, x ∈ set_iter s ↔ x ∈ s.

#[local] Abbreviation K := (list_to_set (keys module_to_file) : gset string).
#[local] Abbreviation E := (edge module_to_file dep_graph).
#[local] Abbreviation Inv := (sort_inv module_to_file dep_graph).
#[local] Abbreviation post := (visit_post module_to_file dep_graph).
#[local] Abbreviation visit' := (visit module_to_file dep_graph set_iter).

Lemma size_unmarked_lt (T : gset string) node fuel :
  node ∈ keys module_to_file → node ∉ T →
  size (K ∖ T) < S fuel → size (K ∖ (T ∪ {[node]})) < fuel.
Proof.
  intros Hk HT Hsz.
  assert (K ∖ (T ∪ {[node]}) ⊂ K ∖ T) as Hsub.
  { split; [set_solver|]. intros Hsup.
    assert (node ∈ K ∖ T) as Hin by set_solver.
    apply Hsup in Hin. set_solver. }
  apply subset_size in Hsub. lia.
Qed.

Lemma sort_inv_mark st node :
  Inv st → node ∉ visited st →
  Inv (SortState (visited st) (temp_mark st ∪ {[node]}) (sorted_modules st)).
Proof.
  intros [Hv Hnd Hk Hm Ho] Hnode. split; simpl; try done.
  intros x Hx. specialize (Hm x Hx). set_solver.
Qed.

Lemma sort_inv_append st node :
  Inv st → node ∈ keys module_to_file → node ∈ temp_mark st →
  (∀ d, E node d → d ∈ visited st) →
  Inv (SortState (visited st ∪ {[node]}) (temp_mark st ∖ {[node]})
                 (sorted_modules st ++ [node])).
Proof.
  intros [Hv Hnd Hk Hm Ho] Hkey Hmark Hdeps.
  assert (node ∉ sorted_modules st) as Hfresh.
  { intros Hin. apply Hv in Hin. by apply Hm in Hin. }
  split; simpl.
  - intros x. rewrite elem_of_union, elem_of_singleton, elem_of_app,
      list_elem_of_singleton, Hv. done.
  - apply NoDup_app. split_and!; [done| |apply NoDup_singleton].
    intros x Hx ->%list_elem_of_singleton. done.
  - intros x [Hx| ->%list_elem_of_singleton]%elem_of_app; auto.
  - intros x [Hx| ->%elem_of_singleton]%elem_of_union; [|set_solver].
    specialize (Hm x Hx). set_solver.
  - intros m d [Hm'| ->%list_elem_of_singleton]%elem_of_app Hedge.
    + apply precedes_app. by apply Ho.
    + apply precedes_snoc; [|done]. apply Hv. by apply Hdeps.
Qed.

(** The loop of lines 75-77, given that the calls it makes behave. *)
Lemma deps_loop_post fuel :
  (∀ node st,
      node ∈ keys module_to_file → Inv st → size (K ∖ temp_mark st) < fuel →
      (∀ t, t ∈ temp_mark st → tc E t node) →
      post st (λ d, d = node) (visit' fuel node st)) →
  ∀ ds st,
    Inv st → size (K ∖ temp_mark st) < fuel →
    (∀ t d, t ∈ temp_mark st → d ∈ ds → d ∈ keys module_to_file → tc E t d) →
    post st (λ d, d ∈ ds ∧ d ∈ keys module_to_file)
      (for_each (fun dep s =>
                   if dict_mem module_to_file dep then visit' fuel dep s
                   else Return s) ds st).
Proof.
  intros IH ds. induction ds as [|dep ds IHds]; intros st Hinv Hsz Hreach; simpl.
  - split_and!; [done..|]. intros d [Hd _]. by apply elem_of_nil in Hd.
  - unfold dict_mem. case_bool_decide as Hkey.
    + specialize (IH dep st Hkey Hinv Hsz).
      destruct (visit' fuel dep st) as [st'| |]; simpl in *.
      * destruct IH as (Hinv' & HT & HV & Hdone).
        { intros t Ht. apply (Hreach t dep); [done|apply elem_of_cons; by left|done]. }
        specialize (IHds st' Hinv'). rewrite HT in IHds.
        specialize (IHds Hsz).
        destruct (for_each _ ds st') as [st''| |]; simpl in *.
        -- destruct IHds as (Hinv'' & HT' & HV' & Hdone').
           { intros t d Ht Hd. apply Hreach; [done|apply elem_of_cons; by right]. }
           split_and!; [done|congruence|set_solver|].
           intros d [[->|Hd]%elem_of_cons Hk]; [|by apply Hdone'].
           apply HV'. by apply Hdone.
        -- apply IHds. intros t d Ht Hd. apply Hreach; [done|apply elem_of_cons; by right].
        -- apply IHds. intros t d Ht Hd. apply Hreach; [done|apply elem_of_cons; by right].
      * apply IH. intros t Ht. apply (Hreach t dep); [done|apply elem_of_cons; by left|done].
      * apply IH. intros t Ht. apply (Hreach t dep); [done|apply elem_of_cons; by left|done].
    + specialize (IHds st Hinv Hsz).
      destruct (for_each _ ds st) as [st''| |]; simpl in *.
      * destruct IHds as (Hinv'' & HT' & HV' & Hdone').
        { intros t d Ht Hd. apply Hreach; [done|apply elem_of_cons; by right]. }
        split_and!; [done..|].
        intros d [[->|Hd]%elem_of_cons Hk]; [done|by apply Hdone'].
      * apply IHds. intros t d Ht Hd. apply Hreach; [done|apply elem_of_cons; by right].
      * apply IHds. intros t d Ht Hd. apply Hreach; [done|apply elem_of_cons; by right].
Qed.

(** One call of [visit]: with fuel above the number of registered modules
    not in progress it returns or raises; when it returns, [node] has been
    output after its dependencies and the marks are as before; when it
    raises, the module it names is on a cycle. *)
Lemma visit_post_holds fuel node st :
  node ∈ keys module_to_file → Inv st → size (K ∖ temp_mark st) < fuel →
  (∀ t, t ∈ temp_mark st → tc E t node) →
  post st (λ d, d = node) (visit' fuel node st).
Proof.
  revert node st. induction fuel as [|fuel IH]; intros node st Hkey Hinv Hsz Hreach.
  { lia. }
  simpl. case_bool_decide as Hmark.
  { simpl. exists node. split; [done|]. by apply Hreach. }
  case_bool_decide as Hvis.
  2:{ simpl. split_and!; [done..|]. intros d ->. done. }
  pose proof (deps_loop_post fuel IH (set_iter (deps_of dep_graph node))
    (SortState (visited st) (temp_mark st ∪ {[node]}) (sorted_modules st))
    (sort_inv_mark st node Hinv Hvis)) as Hloop. simpl in Hloop.
  specialize (Hloop (size_unmarked_lt _ _ _ Hkey Hmark Hsz)).
  destruct (for_each _ _ _) as [st2| |]; simpl in *.
  - destruct Hloop as (Hinv2 & HT & HV & Hdone).
    { intros t d [Ht| ->%elem_of_singleton]%elem_of_union Hd Hk.
      - eapply tc_r; [by apply Hreach|]. split; [by apply set_iter_elem|done].
      - apply tc_once. split; [by apply set_iter_elem|done]. }
    rewrite bool_decide_eq_true_2 by (rewrite HT; set_solver).
    simpl. split_and!.
    + apply sort_inv_append; [done..|rewrite HT; set_solver|].
      intros d [Hd Hk]. apply Hdone. split; [by apply set_iter_elem|done].
    + rewrite HT. set_solver.
    + set_solver.
    + intros d ->. set_solver.
  - apply Hloop.
    intros t d [Ht| ->%elem_of_singleton]%elem_of_union Hd Hk.
    + eapply tc_r; [by apply Hreach|]. split; [by apply set_iter_elem|done].
    + apply tc_once. split; [by apply set_iter_elem|done].
  - apply Hloop.
    intros t d [Ht| ->%elem_of_singleton]%elem_of_union Hd Hk.
    + eapply tc_r; [by apply Hreach|]. split; [by apply set_iter_elem|done].
    + apply tc_once. split; [by apply set_iter_elem|done].
Qed.

Lemma size_keys_le : size (K ∖ ∅) < sort_fuel module_to_file.
Proof.
  unfold sort_fuel, keys. rewrite <-(length_fmap fst module_to_file).
  generalize (module_to_file.*1). intros l.
  enough (size (list_to_set l : gset string) ≤ length l) as Hle.
  { assert (size ((list_to_set l : gset string) ∖ ∅) ≤ size (list_to_set l : gset string))
      by (apply subseteq_size; set_solver). lia. }
  induction l as [|x l IH].
  - by rewrite list_to_set_nil, size_empty.
  - rewrite list_to_set_cons, size_union_alt, size_singleton. simpl.
    assert (size ((list_to_set l : gset string) ∖ {[x]}) ≤ size (list_to_set l : gset string))
      by (apply subseteq_size; set_solver). lia.
Qed.

(** The loop of lines 82-84: every walk starts with nothing in progress. *)
Lemma modules_loop_post ks st :
  (∀ k, k ∈ ks → k ∈ keys module_to_file) → Inv st → temp_mark st = ∅ →
  post st (λ d, d ∈ ks)
    (for_each (fun module s =>
                 if bool_decide (module ∉ visited s)
                 then visit' (sort_fuel module_to_file) module s
                 else Return s) ks st).
Proof.
  revert st. induction ks as [|k ks IHks]; intros st Hks Hinv HT; simpl.
  - split_and!; [done..|]. intros d Hd. by apply elem_of_nil in Hd.
  - assert (k ∈ keys module_to_file) as Hk by (apply Hks, elem_of_cons; by left).
    assert (∀ k', k' ∈ ks → k' ∈ keys module_to_file) as Hks'
      by (intros k' Hk'; apply Hks, elem_of_cons; by right).
    assert (post st (λ d, d = k)
              (if bool_decide (k ∉ visited st)
               then visit' (sort_fuel module_to_file) k st else Return st)) as Hstep.
    { case_bool_decide as Hvis.
      - apply visit_post_holds; [done..| |].
        + rewrite HT. apply size_keys_le.
        + intros t Ht. rewrite HT in Ht. set_solver.
      - simpl. split_and!; [done..|]. by intros d ->. }
    destruct (if bool_decide (k ∉ visited st) then _ else _) as [st'| |];
      simpl in *; [|done..].
    destruct Hstep as (Hinv' & HT' & HV & Hdone).
    specialize (IHks st' Hks' Hinv'). rewrite HT', HT in IHks.
    specialize (IHks eq_refl).
    destruct (for_each _ ks st') as [st''| |]; simpl in *; [|done..].
    destruct IHks as (Hinv'' & HT'' & HV' & Hdone').
    split_and!; [done|congruence|set_solver|].
    intros d [->|Hd]%elem_of_cons; [|by apply Hdone'].
    apply HV'. by apply Hdone.
Qed.

Lemma sort_inv_initial : Inv (SortState ∅ ∅ []).
Proof.
  split; simpl.
  - intros x. split; [set_solver|]. intros Hx. by apply elem_of_nil in Hx.
  - apply NoDup_nil_2.
  - intros x Hx. by apply elem_of_nil in Hx.
  - set_solver.
  - intros m d Hm. by apply elem_of_nil in Hm.
Qed.

(** The sorter never runs out of fuel, and its two outcomes are as
    [sort_post] says. *)
Lemma topological_sort_post :
  sort_post module_to_file dep_graph
    (_topological_sort module_to_file dep_graph set_iter).
Proof.
  unfold _topological_sort.
  pose proof (modules_loop_post (keys module_to_file) (SortState ∅ ∅ [])
                (λ k Hk, Hk) sort_inv_initial eq_refl) as Hloop.
  destruct (for_each _ _ _) as [st| |]; simpl in *; [|done..].
  destruct Hloop as ([Hv Hnd Hk Hm Ho] & _ & _ & Hall).
  split_and!; [done| |].
  - intros x. split; [apply Hk|]. intros Hx. apply Hv. by apply Hall.
  - intros m d Hmk Hedge. apply Ho; [|done]. apply Hv. by apply Hall.
Qed.

(** Along a chain of dependencies the output goes backwards. *)
Lemma order_follows_paths l m d :
  (∀ m d, m ∈ keys module_to_file → E m d → precedes d m l) →
  m ∈ keys module_to_file → tc E m d → precedes d m l.
Proof.
  intros Hord Hm Hpath. induction Hpath as [m d Hedge|m x d Hedge Hpath IH].
  - by apply Hord.
  - eapply precedes_trans; [apply IH; by destruct Hedge|by apply Hord].
Qed.

Lemma cycle_in_registry c : tc E c c → c ∈ keys module_to_file.
Proof.
  intros Hc. assert (∀ a b, tc E a b → b ∈ keys module_to_file) as Htgt.
  { intros a b Hab. induction Hab as [a b [_ Hb]|]; done. }
  by apply (Htgt c c).
Qed.

(** A returned order rules out cycles; a raised error rules out none. *)
Lemma sort_return_acyclic l :
  _topological_sort module_to_file dep_graph set_iter = Return l →
  acyclic module_to_file dep_graph.
Proof.
  intros Hret c Hc. pose proof topological_sort_post as Hpost.
  rewrite Hret in Hpost. destruct Hpost as (_ & _ & Hord).
  apply (precedes_irrefl c l).
  apply order_follows_paths; [done|by apply cycle_in_registry|done].
Qed.

Lemma dict_get_registered d k : k ∈ keys d → ∃ v, dict_get d k = Return v.
Proof.
  induction d as [|[k' v'] d IH]; intros Hk; [by apply elem_of_nil in Hk|].
  simpl. case_bool_decide as Heq; [by eexists|].
  apply elem_of_cons in Hk as [->|Hk]; [done|]. by apply IH.
Qed.

Lemma paths_of_registered d l :
  (∀ m, m ∈ l → m ∈ keys d) →
  ∃ paths, paths_of d l = Return paths ∧ length paths = length l.
Proof.
  induction l as [|m l IH]; intros Hl; simpl; [by exists []|].
  destruct (dict_get_registered d m) as [p ->].
  { apply Hl, elem_of_cons. by left. }
  destruct IH as (ps & -> & Hlen).
  { intros m' Hm'. apply Hl, elem_of_cons. by right. }
  exists (p :: ps). simpl. by rewrite Hlen.
Qed.

(** C1: on an acyclic dependency graph over a registry the sort succeeds,
    and what it returns has the size of the registry, is a permutation of
    the registry's identities without repetition, and puts every
    dependency at a position before that of the module depending on it. *)
Theorem topological_sort_orders_registry :
  NoDup (keys module_to_file) →
  acyclic module_to_file dep_graph →
  ∃ l, _topological_sort module_to_file dep_graph set_iter = Return l ∧
       length l = length module_to_file ∧
       l ≡ₚ keys module_to_file ∧
       NoDup l ∧
       ∀ m d, m ∈ keys module_to_file → d ∈ keys module_to_file →
              d ∈ deps_of dep_graph m → precedes d m l.
Proof.
  intros Hkeys Hacyc. pose proof topological_sort_post as Hpost.
  destruct (_topological_sort _ _ _) as [l|e|]; simpl in Hpost; [| |done].
  - destruct Hpost as (Hnd & Hall & Hord).
    assert (l ≡ₚ keys module_to_file) as Hperm by by apply NoDup_Permutation.
    exists l. split_and!; [done| |done..|].
    + rewrite Hperm. unfold keys. by rewrite length_fmap.
    + intros m d Hm Hd Hdep. by apply Hord.
  - destruct Hpost as (c & _ & Hc). by destruct (Hacyc c).
Qed.

(** C2: when the dependency graph has a cycle, the sort raises the
    circular-dependency error, the module it names lies on a cycle, no
    order is returned, and the caller of the guarded block gets the empty
    list, with the error printed. *)
Theorem cycle_is_detected n :
  on_cycle module_to_file dep_graph n →
  ∃ c, _topological_sort module_to_file dep_graph set_iter
         = Raise (ValueError (cycle_message c)) ∧
       on_cycle module_to_file dep_graph c ∧
       sorted_or_empty set_iter module_to_file dep_graph
         = (Return [], ["Error: " +:+ cycle_message c]).
Proof.
  intros Hn. pose proof topological_sort_post as Hpost.
  unfold sorted_or_empty.
  destruct (_topological_sort _ _ _) as [l|e|] eqn:Hsort; simpl in Hpost; [| |done].
  - by destruct (sort_return_acyclic l Hsort n).
  - destruct Hpost as (c & -> & Hc). by exists c.
Qed.

(** C10: every identity of a returned order is a key of the registry, so
    translating the order to file paths finds every key: the guarded block
    returns one path per identity and no lookup fails. *)
Theorem sorted_modules_are_registered l :
  _topological_sort module_to_file dep_graph set_iter = Return l →
  Forall (λ m, m ∈ keys module_to_file) l ∧
  ∃ paths, paths_of module_to_file l = Return paths ∧
           length paths = length l ∧
           sorted_or_empty set_iter module_to_file dep_graph = (Return paths, []).
Proof.
  intros Hsort. pose proof topological_sort_post as Hpost.
  rewrite Hsort in Hpost. destruct Hpost as (_ & Hall & _).
  assert (∀ m, m ∈ l → m ∈ keys module_to_file) as Hreg by (intros m; apply Hall).
  split; [by apply Forall_forall|].
  destruct (paths_of_registered module_to_file l Hreg) as (paths & Hpaths & Hlen).
  exists paths. split_and!; [done..|].
  unfold sorted_or_empty. by rewrite Hsort, Hpaths.
Qed.
End SorterCorrect.

Lemma chain_sorted :
  _topological_sort chain_registry chain_graph elements = Return ["c"; "b"; "a"].
Proof. vm_compute. reflexivity. Qed.

Lemma topological_sort_orders_registry_witness :
  ∃ l, _topological_sort chain_registry chain_graph elements = Return l ∧
       length l = length chain_registry ∧
       l ≡ₚ keys chain_registry ∧
       NoDup l ∧
       ∀ m d, m ∈ keys chain_registry → d ∈ keys chain_registry →
              d ∈ deps_of chain_graph m → precedes d m l.
Proof.
  apply (topological_sort_orders_registry chain_registry chain_graph elements).
  - intros s x. apply elem_of_elements.
  - by_computation.
  - apply (sort_return_acyclic chain_registry chain_graph elements
             (λ s x, elem_of_elements s x) _ chain_sorted).
Defined.

Lemma loop_has_cycle : on_cycle loop_registry loop_graph "a".
Proof.
  apply tc_l with "b"; [|apply tc_once]; split; by_computation.
Qed.

Lemma cycle_is_detected_witness :
  ∃ c, _topological_sort loop_registry loop_graph elements
         = Raise (ValueError (cycle_message c)) ∧
       on_cycle loop_registry loop_graph c ∧
       sorted_or_empty elements loop_registry loop_graph
         = (Return [], ["Error: " +:+ cycle_message c]).
Proof.
  apply (cycle_is_detected loop_registry loop_graph elements
           (λ s x, elem_of_elements s x) "a" loop_has_cycle).
Defined.

Example loop_run :
  get_sorted_files posix_sep relpath_id loop_parse elements ["a.py"; "b.py"] ""
  = (Return [], ["Error: Circular dependency detected involving a"]).
Proof. vm_compute. reflexivity. Qed.

Lemma sorted_modules_are_registered_witness :
  Forall (λ m, m ∈ keys chain_registry) ["c"; "b"; "a"] ∧
  ∃ paths, paths_of chain_registry ["c"; "b"; "a"] = Return paths ∧
           length paths = length ["c"; "b"; "a"] ∧
           sorted_or_empty elements chain_registry chain_graph = (Return paths, []).
Proof.
  apply (sorted_modules_are_registered chain_registry chain_graph elements
           (λ s x, elem_of_elements s x) _ chain_sorted).
Defined.

(** ** Import resolution *)

Section ImportsCorrect.
Variable module_to_file : registry.
Variable parse : extractor.

#[local] Abbreviation step := (import_step module_to_file).

Lemma import_names_sound names (dependencies : gset string) x :
  x ∈ foldl (fun deps full_module =>
               if dict_mem module_to_file full_module
               then deps ∪ {[full_module]} else deps) dependencies names →
  x ∈ dependencies ∨ x ∈ keys module_to_file.
Proof.
  revert dependencies. induction names as [|n names IH]; intros deps; simpl; [auto|].
  intros Hx. apply IH in Hx as [Hx|Hx]; [|auto].
  unfold dict_mem in Hx. case_bool_decide; [|auto].
  apply elem_of_union in Hx as [Hx| ->%elem_of_singleton]; auto.
Qed.

Lemma import_names_mono names (dependencies : gset string) :
  dependencies ⊆ foldl (fun deps full_module =>
               if dict_mem module_to_file full_module
               then deps ∪ {[full_module]} else deps) dependencies names.
Proof.
  revert dependencies. induction names as [|n names IH]; intros deps; simpl; [done|].
  etrans; [|apply IH]. destruct (dict_mem _ _); set_solver.
Qed.

Lemma import_names_unregistered names (dependencies : gset string) :
  (∀ n, n ∈ names → n ∉ keys module_to_file) →
  foldl (fun deps full_module =>
           if dict_mem module_to_file full_module
           then deps ∪ {[full_module]} else deps) dependencies names
  = dependencies.
Proof.
  revert dependencies. induction names as [|n names IH]; intros deps Hn; simpl; [done|].
  unfold dict_mem at 2. rewrite bool_decide_eq_false_2.
  - apply IH. intros n' Hn'. apply Hn, elem_of_cons. by right.
  - apply Hn, elem_of_cons. by left.
Qed.

(** A node only ever adds identities of the registry. *)
Lemma import_step_sound module_name dependencies node x :
  x ∈ step module_name dependencies node →
  x ∈ dependencies ∨ x ∈ keys module_to_file.
Proof.
  destruct node as [names|module level|]; simpl; [apply import_names_sound| |auto].
  destruct (truthy module); simpl.
  - unfold dict_mem. case_bool_decide as Hm.
    { intros [Hx| ->%elem_of_singleton]%elem_of_union; auto. }
    case_bool_decide; [|auto].
    destruct (relative_candidate _ _ _) as [c|]; [|auto].
    case_bool_decide; [|auto].
    intros [Hx| ->%elem_of_singleton]%elem_of_union; auto.
  - auto.
Qed.

Lemma import_step_mono module_name dependencies node :
  dependencies ⊆ step module_name dependencies node.
Proof.
  destruct node as [names|module level|]; simpl; [apply import_names_mono| |done].
  repeat (case_match; try set_solver).
Qed.

Lemma import_step_unresolved module_name dependencies node :
  unresolved module_to_file module_name node →
  step module_name dependencies node = dependencies.
Proof.
  destruct node as [names|module level|]; simpl; [apply import_names_unregistered| |done].
  intros Hun. destruct module as [m|]; simpl; [|done].
  destruct (Hun m eq_refl) as [Hm Hc].
  unfold dict_mem. rewrite (bool_decide_eq_false_2 (m ∈ _)) by done.
  rewrite andb_false_r.
  destruct (bool_decide (m ≠ "") && bool_decide (0 < level)); [|done].
  destruct (relative_candidate _ _ _) as [c|]; [|done].
  by rewrite bool_decide_eq_false_2 by by apply Hc.
Qed.

Lemma import_loop_sound module_name nodes (dependencies : gset string) x :
  x ∈ foldl (step module_name) dependencies nodes →
  x ∈ dependencies ∨ x ∈ keys module_to_file.
Proof.
  revert dependencies. induction nodes as [|node nodes IH]; intros deps; simpl; [auto|].
  intros Hx. apply IH in Hx as [Hx|Hx]; [|auto]. by eapply import_step_sound.
Qed.

(** [_get_imports_from_file] on a registered file returns, whatever the
    extractor does; the set it returns is within the registry. *)
Lemma get_imports_returns filepath k :
  next_key module_to_file filepath = Return k →
  ∃ deps out,
    _get_imports_from_file module_to_file parse filepath = (Return deps, out) ∧
    (∀ x, x ∈ deps → x ∈ keys module_to_file) ∧
    match parse filepath with
    | inr nodes => deps = foldl (step k) ∅ nodes ∧ out = []
    | inl e => deps = ∅ ∧ out = [parse_warning filepath e]
    end.
Proof.
  intros Hk. unfold _get_imports_from_file. rewrite Hk. simpl.
  destruct (parse filepath) as [e|nodes]; simpl.
  - exists ∅, [parse_warning filepath e].
    split_and!; [done|set_solver|done..].
  - exists (foldl (step k) ∅ nodes), []. split_and!; [done| |done..].
    intros x [Hx|Hx]%import_loop_sound; [set_solver|done].
Qed.

(** C8: resolution of the references of a registered module never fails:
    the extraction returns a set, the set holds registry identities only,
    each node keeps what was collected before it, and a reference none of
    whose readings is in the registry adds nothing. *)
Theorem unresolved_references_are_dropped filepath k :
  next_key module_to_file filepath = Return k →
  (∃ deps out,
      _get_imports_from_file module_to_file parse filepath = (Return deps, out) ∧
      ∀ x, x ∈ deps → x ∈ keys module_to_file) ∧
  ∀ dependencies node,
    dependencies ⊆ step k dependencies node ∧
    (∀ x, x ∈ step k dependencies node →
          x ∈ dependencies ∨ x ∈ keys module_to_file) ∧
    (unresolved module_to_file k node → step k dependencies node = dependencies).
Proof.
  intros Hk. split.
  - destruct (get_imports_returns filepath k Hk) as (deps & out & Hret & Hreg & _).
    by exists deps, out.
  - intros dependencies node. split_and!.
    + apply import_step_mono.
    + intros x. apply import_step_sound.
    + apply import_step_unresolved.
Qed.

(** C9: a relative reference (level at least 1) whose raw module string is
    itself a registry identity adds exactly that identity: the first branch
    is taken and the module's own identity and the level play no part. *)
Theorem verbatim_match_takes_precedence module_name dependencies module level :
  module ≠ "" → 1 ≤ level → module ∈ keys module_to_file →
  step module_name dependencies (ImportFrom (Some module) level)
  = dependencies ∪ {[module]}.
Proof.
  intros Hne _ Hreg. simpl. unfold dict_mem.
  rewrite (bool_decide_eq_true_2 (module ≠ "")) by done.
  by rewrite (bool_decide_eq_true_2 (module ∈ _)) by done.
Qed.
End ImportsCorrect.

Lemma unresolved_references_are_dropped_witness :
  (∃ deps out,
      _get_imports_from_file pkg_registry no_imports "pkg/x.py" = (Return deps, out) ∧
      ∀ x, x ∈ deps → x ∈ keys pkg_registry) ∧
  ∀ dependencies node,
    dependencies ⊆ import_step pkg_registry "pkg.x" dependencies node ∧
    (∀ x, x ∈ import_step pkg_registry "pkg.x" dependencies node →
          x ∈ dependencies ∨ x ∈ keys pkg_registry) ∧
    (unresolved pkg_registry "pkg.x" node →
     import_step pkg_registry "pkg.x" dependencies node = dependencies).
Proof.
  apply (unresolved_references_are_dropped pkg_registry no_imports "pkg/x.py" "pkg.x").
  reflexivity.
Defined.

Lemma verbatim_match_takes_precedence_witness :
  import_step pkg_registry "pkg.sub.mod" ∅ (ImportFrom (Some "x") 1) = ∅ ∪ {["x"]}.
Proof.
  apply (verbatim_match_takes_precedence pkg_registry "pkg.sub.mod" ∅ "x" 1).
  - discriminate.
  - lia.
  - by_computation.
Defined.

(** ** Relative references from [pkg.sub.mod] *)

Lemma split_length_pos sep s : 0 < length (split sep s).
Proof.
  induction s as [|c s IH]; simpl; [lia|].
  case_bool_decide; simpl; [lia|]. destruct (split sep s); simpl; lia.
Qed.

Lemma relative_candidate_too_deep module_name module level :
  length (split "." module_name) < level →
  relative_candidate module_name module level = None.
Proof.
  intros Hlt. unfold relative_candidate.
  rewrite bool_decide_eq_false_2; [done|lia].
Qed.

(** C3, as the code has it: from [pkg.sub.mod] a level-1 reference to [x]
    stands for [pkg.sub.x], a level-2 reference for [pkg.x] and a level-3
    reference for [x]; a level above the number of segments of the module's
    identity has no candidate, and such a reference, when its raw name is
    not itself registered, adds nothing. *)
Theorem relative_reference_candidates
    (module_to_file : registry) (module_name module : string) (level : nat)
    (dependencies : gset string) :
  length (split "." module_name) < level →
  module ∉ keys module_to_file →
  relative_candidate "pkg.sub.mod" "x" 1 = Some "pkg.sub.x" ∧
  relative_candidate "pkg.sub.mod" "x" 2 = Some "pkg.x" ∧
  relative_candidate "pkg.sub.mod" "x" 3 = Some "x" ∧
  relative_candidate module_name module level = None ∧
  import_step module_to_file module_name dependencies
    (ImportFrom (Some module) level) = dependencies.
Proof.
  intros Hlt Hreg. split_and!; [reflexivity..| |].
  - by apply relative_candidate_too_deep.
  - apply import_step_unresolved. intros m [= <-]. split; [done|].
    intros c Hc. by rewrite relative_candidate_too_deep in Hc.
Qed.

Lemma relative_reference_candidates_witness :
  relative_candidate "pkg.sub.mod" "x" 1 = Some "pkg.sub.x" ∧
  relative_candidate "pkg.sub.mod" "x" 2 = Some "pkg.x" ∧
  relative_candidate "pkg.sub.mod" "x" 3 = Some "x" ∧
  relative_candidate "pkg.sub.mod" "x" 4 = None ∧
  import_step pkg_registry_inner "pkg.sub.mod" ∅ (ImportFrom (Some "x") 4) = ∅.
Proof.
  apply (relative_reference_candidates pkg_registry_inner "pkg.sub.mod" "x" 4 ∅).
  - vm_compute. lia.
  - by_computation.
Defined.

(** C3 as stated fails: level 1 from [pkg.sub.mod] does not give [pkg.x],
    level 2 does not give [x]; with [pkg.x] registered and [pkg.sub.x] not,
    the level-1 reference to [x] is dropped. *)
Lemma level_one_is_the_own_package :
  relative_candidate "pkg.sub.mod" "x" 1 ≠ Some "pkg.x" ∧
  relative_candidate "pkg.sub.mod" "x" 2 ≠ Some "x" ∧
  import_step [("pkg.sub.mod", "pkg/sub/mod.py"); ("pkg.x", "pkg/x.py")]
    "pkg.sub.mod" ∅ (ImportFrom (Some "x") 1) = ∅.
Proof. split_and!; [discriminate..|]. vm_compute. reflexivity. Qed.

(** ** Identities derived from paths *)

(** C4 fails on the code: [rstrip('.py')] strips a set of characters, so
    the stem of [happy.py] loses its last three letters, and [py.py] is left
    with nothing. *)
Theorem module_name_strips_stem_characters :
  module_name_of posix_sep relpath_id "" "happy.py" = "ha" ∧
  module_name_of posix_sep relpath_id "" "pkg/happy.py" = "pkg.ha" ∧
  module_name_of posix_sep relpath_id "" "py.py" = "".
Proof. split_and!; vm_compute; reflexivity. Qed.

(** ** The registry as a dictionary *)

Lemma dict_set_keys d k v :
  keys (dict_set d k v) = if bool_decide (k ∈ keys d) then keys d else keys d ++ [k].
Proof.
  induction d as [|[k' v'] d IH]; simpl; [done|].
  destruct (decide (k' = k)) as [->|Hne].
  - rewrite bool_decide_eq_true_2 by done. simpl.
    rewrite bool_decide_eq_true_2; [done|apply elem_of_cons; by left].
  - rewrite bool_decide_eq_false_2 by done. simpl.
    rewrite IH. destruct (decide (k ∈ keys d)) as [Hin|Hout].
    + rewrite !bool_decide_eq_true_2; [done|apply elem_of_cons; by right|done].
    + rewrite !bool_decide_eq_false_2; [done| |done].
      intros [?|?]%elem_of_cons; simplify_eq; done.
Qed.

Lemma dict_set_NoDup d k v : NoDup (keys d) → NoDup (keys (dict_set d k v)).
Proof.
  intros Hnd. rewrite dict_set_keys. case_bool_decide as Hin; [done|].
  apply NoDup_app. split_and!; [done| |apply NoDup_singleton].
  intros x Hx ->%list_elem_of_singleton. done.
Qed.

Lemma dict_set_elem_inv d k v k' v' :
  (k', v') ∈ dict_set d k v → (k', v') = (k, v) ∨ (k', v') ∈ d.
Proof.
  induction d as [|[k0 v0] d IH]; simpl.
  - intros ->%list_elem_of_singleton. by left.
  - case_bool_decide as Heq.
    + intros [->|Hin]%elem_of_cons; [subst; by left|].
      right. apply elem_of_cons. by right.
    + intros [->|Hin]%elem_of_cons; [right; apply elem_of_cons; by left|].
      destruct (IH Hin) as [?|?]; [by left|right; apply elem_of_cons; by right].
Qed.

Lemma dict_set_elem d k v : (k, v) ∈ dict_set d k v.
Proof.
  induction d as [|[k0 v0] d IH]; simpl; [apply list_elem_of_singleton; done|].
  case_bool_decide as Heq; [subst|]; apply elem_of_cons; [by left|by right].
Qed.

Lemma dict_set_other d k v k' v' :
  (k', v') ∈ d → k' ≠ k → (k', v') ∈ dict_set d k v.
Proof.
  intros Hin Hne. induction d as [|[k0 v0] d IH]; simpl.
  { by apply elem_of_nil in Hin. }
  apply elem_of_cons in Hin as [Heq|Hin].
  - simplify_eq. rewrite bool_decide_eq_false_2 by done. apply elem_of_cons. by left.
  - case_bool_decide; apply elem_of_cons; right; [done|by apply IH].
Qed.

Lemma next_key_Return d filepath k : next_key d filepath = Return k → (k, filepath) ∈ d.
Proof.
  induction d as [|[k0 v0] d IH]; simpl; [done|].
  case_bool_decide as Heq.
  - intros [= <-]. subst. apply elem_of_cons. by left.
  - intros Hk. apply elem_of_cons. right. by apply IH.
Qed.

Lemma next_key_registered d filepath k :
  (k, filepath) ∈ d → ∃ k', next_key d filepath = Return k'.
Proof.
  induction d as [|[k0 v0] d IH]; simpl; [by intros ?%elem_of_nil|].
  case_bool_decide as Heq; [by eexists|].
  intros [?|Hin]%elem_of_cons; [simplify_eq|by apply IH].
Qed.

(** [next] either gives a key or raises [StopIteration], the latter exactly
    when no key maps to the file. *)
Lemma next_key_cases d filepath :
  (∃ k, next_key d filepath = Return k) ∨
  (next_key d filepath = Raise StopIteration ∧ ∀ k, (k, filepath) ∉ d).
Proof.
  induction d as [|[k0 v0] d IH]; simpl.
  - right. split; [done|]. intros k. apply not_elem_of_nil.
  - case_bool_decide as Heq; [left; by eexists|].
    destruct IH as [?|[-> Hno]]; [by left|right].
    split; [done|]. intros k [?|?]%elem_of_cons; [simplify_eq|by eapply Hno].
Qed.

Lemma dict_functional (d : registry) k v1 v2 :
  NoDup (keys d) → (k, v1) ∈ d → (k, v2) ∈ d → v1 = v2.
Proof.
  induction d as [|[k0 v0] d IH]; simpl; [by intros _ ?%elem_of_nil|].
  intros [Hk0 Hnd]%NoDup_cons [H1|H1]%elem_of_cons [H2|H2]%elem_of_cons;
    simplify_eq; try done.
  - destruct Hk0. apply list_elem_of_fmap. by exists (k0, v2).
  - destruct Hk0. apply list_elem_of_fmap. by exists (k0, v1).
  - by apply IH.
Qed.

Section RegistryCorrect.
Variable sep : ascii.
Variable relpath : string → string → string.
Variable base_dir : string.

#[local] Abbreviation name := (module_name_of sep relpath base_dir).
#[local] Abbreviation build files :=
  (_build_module_mapping sep relpath files base_dir).

Lemma build_snoc files filepath :
  build (files ++ [filepath]) = dict_set (build files) (name filepath) filepath.
Proof. unfold _build_module_mapping. by rewrite foldl_app. Qed.

(** The keys of the registry are distinct, as those of any [dict]. *)
Lemma build_NoDup files : NoDup (keys (build files)).
Proof.
  induction files as [|f files IH] using rev_ind; [apply NoDup_nil_2|].
  rewrite build_snoc. by apply dict_set_NoDup.
Qed.

(** Every entry maps the identity of an input file to that file. *)
Lemma build_entries files k v :
  (k, v) ∈ build files → v ∈ files ∧ k = name v.
Proof.
  induction files as [|f files IH] using rev_ind; [by intros ?%elem_of_nil|].
  rewrite build_snoc. intros [Heq|Hin]%dict_set_elem_inv.
  - simplify_eq. split; [|done]. apply elem_of_app. right. by apply list_elem_of_singleton.
  - destruct (IH Hin) as [Hv Hk]. split; [|done]. apply elem_of_app. by left.
Qed.

(** One value per key. *)
Lemma build_functional files k v1 v2 :
  (k, v1) ∈ build files → (k, v2) ∈ build files → v1 = v2.
Proof. apply dict_functional, build_NoDup. Qed.

(** When distinct files have distinct identities, every file is found. *)
Lemma build_registers_all files filepath :
  (∀ f1 f2, f1 ∈ files → f2 ∈ files → name f1 = name f2 → f1 = f2) →
  filepath ∈ files → (name filepath, filepath) ∈ build files.
Proof.
  induction files as [|f files IH] using rev_ind; [by intros _ ?%elem_of_nil|].
  intros Hinj Hin. rewrite build_snoc.
  destruct (decide (name filepath = name f)) as [Heq|Hne].
  - assert (filepath = f) as ->.
    { apply Hinj; [done| |done]. apply elem_of_app. right. by apply list_elem_of_singleton. }
    apply dict_set_elem.
  - apply dict_set_other; [|done]. apply IH.
    + intros f1 f2 H1 H2. apply Hinj; apply elem_of_app; by left.
    + apply elem_of_app in Hin as [?|Heq%list_elem_of_singleton]; [done|by subst].
Qed.

(** The later of two files with one identity is the one registered. *)
Lemma build_last_wins files filepath :
  (name filepath, filepath) ∈ build (files ++ [filepath]).
Proof. rewrite build_snoc. apply dict_set_elem. Qed.
End RegistryCorrect.

(** ** Building the graph *)

Lemma bind_lift_Return {A B} (a : A) (k : A → Py B) :
  (x ← lift (Return a); k x) = k a.
Proof. unfold mbind, Py_bind, lift. by destruct (k a). Qed.

Lemma bind_Return {A B} (a : A) out (k : A → Py B) :
  mbind k (Return a, out) = ((k a).1, out ++ (k a).2).
Proof. unfold mbind, Py_bind. by destruct (k a). Qed.

Lemma bind_Raise {A B} e out (k : A → Py B) :
  mbind k (Raise e, out) = (Raise e, out).
Proof. reflexivity. Qed.

Section GraphCorrect.
Variable module_to_file : registry.
Variable parse : extractor.

#[local] Abbreviation loop := (build_loop module_to_file parse).

Lemma get_imports_extracted filepath k :
  next_key module_to_file filepath = Return k →
  ∃ out,
    _get_imports_from_file module_to_file parse filepath
      = (Return (extracted module_to_file parse k filepath), out) ∧
    ∀ e, parse filepath = inl e → parse_warning filepath e ∈ out.
Proof.
  intros Hk.
  destruct (get_imports_returns module_to_file parse filepath k Hk)
    as (deps & out & Hret & _ & Hcase).
  exists out. unfold extracted. destruct (parse filepath) as [e|nodes].
  - destruct Hcase as [-> ->]. split; [done|].
    intros e' [= <-]. apply list_elem_of_singleton. done.
  - destruct Hcase as [-> ->]. split; [done|]. by intros e' [=].
Qed.

Lemma build_loop_cons filepath files dep_graph :
  loop (filepath :: files) dep_graph =
    (module_name ← lift (next_key module_to_file filepath);
     dependencies ← _get_imports_from_file module_to_file parse filepath;
     loop files (<[module_name := dependencies]> dep_graph)).
Proof. reflexivity. Qed.

(** A file no key maps to stops the loop with [StopIteration]. *)
Lemma build_loop_stops files dep_graph filepath :
  filepath ∈ files → (∀ k, (k, filepath) ∉ module_to_file) →
  ∃ out, loop files dep_graph = (Raise StopIteration, out).
Proof.
  revert dep_graph. induction files as [|f files IH]; intros g Hin Hno.
  { by apply elem_of_nil in Hin. }
  rewrite build_loop_cons.
  destruct (next_key_cases module_to_file f) as [[k Hk]|[Hk _]].
  - rewrite Hk, bind_lift_Return.
    destruct (get_imports_extracted f k Hk) as (out & -> & _).
    rewrite bind_Return.
    apply elem_of_cons in Hin as [->|Hin].
    { apply next_key_Return in Hk. by destruct (Hno k). }
    destruct (IH (<[k:=extracted module_to_file parse k f]> g) Hin Hno) as [out' ->].
    by eexists.
  - rewrite Hk. by eexists.
Qed.

(** When every file is registered under its own identity, the loop
    returns a graph with the extracted set of each file, and has printed a
    warning for each file the extractor failed on. *)
Lemma build_loop_returns (name : string → string) files dep_graph :
  NoDup (keys module_to_file) →
  (∀ k v, (k, v) ∈ module_to_file → k = name v) →
  (∀ f, f ∈ files → (name f, f) ∈ module_to_file) →
  ∃ g out,
    loop files dep_graph = (Return g, out) ∧
    (∀ f, f ∈ files → g !! name f = Some (extracted module_to_file parse (name f) f)) ∧
    (∀ k, (∀ f, f ∈ files → name f ≠ k) → g !! k = dep_graph !! k) ∧
    (∀ f e, f ∈ files → parse f = inl e → parse_warning f e ∈ out).
Proof.
  intros Hnd Hname. revert dep_graph.
  induction files as [|f files IH]; intros g0 Hreg.
  { exists g0, []. split_and!; [done| |done|].
    - by intros f ?%elem_of_nil.
    - by intros f e ?%elem_of_nil. }
  rewrite build_loop_cons.
  assert ((name f, f) ∈ module_to_file) as Hf by (apply Hreg, elem_of_cons; by left).
  destruct (next_key_registered _ _ _ Hf) as [k Hk].
  assert (k = name f) as -> by (by apply Hname, next_key_Return).
  rewrite Hk, bind_lift_Return.
  destruct (get_imports_extracted f (name f) Hk) as (out & -> & Hwarn).
  rewrite bind_Return.
  destruct (IH (<[name f:=extracted module_to_file parse (name f) f]> g0))
    as (g & out' & -> & Hg & Hkeep & Hwarn').
  { intros f' Hf'. apply Hreg, elem_of_cons. by right. }
  exists g, (out ++ out'). simpl. split_and!; [done|..].
  - intros f' [->|Hf']%elem_of_cons; [|by apply Hg].
    destruct (decide (f ∈ files)) as [Hin|Hout]; [by apply Hg|].
    rewrite Hkeep; [by rewrite lookup_insert_eq|].
    intros f' Hf' Heq. apply Hout.
    assert (f' = f) as ->; [|done].
    apply (dict_functional module_to_file (name f)); [done| |done].
    rewrite <-Heq. apply Hreg, elem_of_cons. by right.
  - intros k Hk'. rewrite Hkeep.
    + rewrite lookup_insert_ne; [done|]. apply Hk', elem_of_cons. by left.
    + intros f' Hf'. apply Hk', elem_of_cons. by right.
  - intros f' e [->|Hf']%elem_of_cons Hparse; apply elem_of_app.
    + left. by apply Hwarn.
    + right. by eapply Hwarn'.
Qed.
End GraphCorrect.

(** ** A whole run *)

Section RunCorrect.
Variable sep : ascii.
Variable relpath : string → string → string.
Variable parse : extractor.
Variable set_iter : gset string → list string.
Hypothesis set_iter_elem : ∀ s x, x ∈ set_iter s ↔ x ∈ s.
Variable base_dir : string.

#[local] Abbreviation name := (module_name_of sep relpath base_dir).
#[local] Abbreviation build files :=
  (_build_module_mapping sep relpath files base_dir).

(** The guarded block of lines 91-96 always returns a list. *)
Lemma sorted_or_empty_returns module_to_file dep_graph :
  ∃ paths out,
    sorted_or_empty set_iter module_to_file dep_graph = (Return paths, out).
Proof.
  pose proof (topological_sort_post module_to_file dep_graph set_iter set_iter_elem)
    as Hpost.
  unfold sorted_or_empty.
  destruct (_topological_sort _ _ _) as [l|e|]; simpl in Hpost; [| |done].
  - destruct Hpost as (_ & Hall & _).
    destruct (paths_of_registered module_to_file l) as (paths & -> & _).
    { intros m. apply Hall. }
    by exists paths, [].
  - destruct Hpost as (c & -> & _). by eexists _, _.
Qed.

(** C5 fails on the code: when two distinct input files derive one
    identity, the registry keeps one of them only, and the graph builder's
    [next] finds no key for the other: the run ends in [StopIteration]
    instead of completing over the surviving entries. *)
Theorem duplicate_identity_stops_the_run files f1 f2 :
  f1 ∈ files → f2 ∈ files → f1 ≠ f2 →
  module_name_of sep relpath base_dir f1 = module_name_of sep relpath base_dir f2 →
  ∃ out, get_sorted_files sep relpath parse set_iter files base_dir
         = (Raise StopIteration, out).
Proof.
  intros H1 H2 Hne Hname.
  assert (∃ f, f ∈ files ∧ ∀ k, (k, f) ∉ build files) as (f & Hf & Hno).
  { destruct (next_key_cases (build files) f1) as [[k1 Hk1]|[_ Hno1]]; cycle 1.
    { by exists f1. }
    apply next_key_Return in Hk1. exists f2. split; [done|]. intros k2 Hk2. apply Hne.
    destruct (build_entries _ _ _ _ _ _ Hk1) as [_ ->].
    destruct (build_entries _ _ _ _ _ _ Hk2) as [_ ->].
    rewrite Hname in Hk1. by eapply build_functional. }
  unfold get_sorted_files, _build_dependency_graph.
  destruct (build_loop_stops (build files) parse files ∅ f Hf Hno) as [out ->].
  by exists out.
Qed.

(** X18: in a run over files with distinct identities, a file the
    extractor fails on gets the empty dependency set in the graph, every
    other file still gets the set extracted from it, the failure is
    printed as a line of output, and the run returns a list of paths. *)
Theorem parse_failure_is_a_warning files f e :
  (∀ f1 f2, f1 ∈ files → f2 ∈ files → name f1 = name f2 → f1 = f2) →
  f ∈ files → parse f = inl e →
  ∃ g out paths out',
    _build_dependency_graph (build files) parse files = (Return g, out) ∧
    g !! name f = Some ∅ ∧
    parse_warning f e ∈ out ∧
    (∀ f', f' ∈ files →
           g !! name f' = Some (extracted (build files) parse (name f') f')) ∧
    get_sorted_files sep relpath parse set_iter files base_dir
    = (Return paths, out ++ out').
Proof.
  intros Hinj Hf Hparse.
  destruct (build_loop_returns (build files) parse name files ∅)
    as (g & out & Hbuild & Hg & _ & Hwarn).
  { apply build_NoDup. }
  { intros k v Hkv. by destruct (build_entries _ _ _ _ _ _ Hkv). }
  { intros f' Hf'. by apply build_registers_all. }
  destruct (sorted_or_empty_returns (build files) g) as (paths & out' & Hsorted).
  exists g, out, paths, out'. split_and!; [done| |by eapply Hwarn|done|].
  - rewrite (Hg f Hf). unfold extracted. by rewrite Hparse.
  - unfold get_sorted_files. cbv zeta.
    fold (_build_dependency_graph (build files) parse files) in Hbuild.
    by rewrite Hbuild, bind_Return, Hsorted.
Qed.
End RunCorrect.

Lemma duplicate_identity_stops_the_run_witness :
  ∃ out, get_sorted_files posix_sep relpath_id no_imports elements
           ["a/b.py"; "a.b.py"] "" = (Raise StopIteration, out).
Proof.
  apply (duplicate_identity_stops_the_run posix_sep relpath_id no_imports elements ""
           ["a/b.py"; "a.b.py"] "a/b.py" "a.b.py").
  - by_computation.
  - by_computation.
  - discriminate.
  - vm_compute. reflexivity.
Defined.

(** The registry of the two files of the previous run keeps the later one. *)
Example duplicate_identity_registry :
  _build_module_mapping posix_sep relpath_id ["a/b.py"; "a.b.py"] ""
  = [("a.b", "a.b.py")].
Proof. vm_compute. reflexivity. Qed.

Lemma parse_failure_is_a_warning_witness :
  ∃ g out paths out',
    _build_dependency_graph
      (_build_module_mapping posix_sep relpath_id ["a.py"; "b.py"] "")
      broken_parse ["a.py"; "b.py"] = (Return g, out) ∧
    g !! module_name_of posix_sep relpath_id "" "a.py" = Some ∅ ∧
    parse_warning "a.py" "invalid syntax" ∈ out ∧
    (∀ f', f' ∈ ["a.py"; "b.py"] →
       g !! module_name_of posix_sep relpath_id "" f'
       = Some (extracted
                 (_build_module_mapping posix_sep relpath_id ["a.py"; "b.py"] "")
                 broken_parse (module_name_of posix_sep relpath_id "" f') f')) ∧
    get_sorted_files posix_sep relpath_id broken_parse elements ["a.py"; "b.py"] ""
    = (Return paths, out ++ out').
Proof.
  apply (parse_failure_is_a_warning posix_sep relpath_id broken_parse elements
           (λ s x, elem_of_elements s x) "" ["a.py"; "b.py"] "a.py" "invalid syntax").
  - intros f1 f2 H1%list_elem_of_In H2%list_elem_of_In Hname.
    simpl in H1, H2.
    destruct H1 as [<-|[<-|[]]], H2 as [<-|[<-|[]]];
      first [reflexivity | vm_compute in Hname; discriminate].
  - by_computation.
  - reflexivity.
Defined.

Example broken_parse_run :
  get_sorted_files posix_sep relpath_id broken_parse elements ["b.py"; "a.py"] ""
  = (Return ["a.py"; "b.py"], ["Error parsing a.py: invalid syntax"]).
Proof. vm_compute. reflexivity. Qed.

(** C7 fails on the code: when the file the extractor fails on shares its
    identity with a later file, the key search of line 60 raises before the
    [try] block is reached: the builder makes no graph, so the file gets no
    empty set, no warning is printed, and the run ends in [StopIteration]
    instead of going on to the other file. *)
Theorem parse_failure_lost_to_duplicate_identity
    (set_iter : gset string → list string) :
  dup_broken_parse "a/b.py" = inl "invalid syntax" ∧
  next_key (_build_module_mapping posix_sep relpath_id ["a/b.py"; "a.b.py"] "")
    "a/b.py" = Raise StopIteration ∧
  _build_dependency_graph
    (_build_module_mapping posix_sep relpath_id ["a/b.py"; "a.b.py"] "")
    dup_broken_parse ["a/b.py"; "a.b.py"] = (Raise StopIteration, []) ∧
  get_sorted_files posix_sep relpath_id dup_broken_parse set_iter
    ["a/b.py"; "a.b.py"] "" = (Raise StopIteration, []).
Proof. split_and!; vm_compute; reflexivity. Qed.

(** ** The diamond *)

Lemma precedesb_spec d m l : precedesb d m l = true ↔ precedes d m l.
Proof.
  unfold precedesb, precedes. split.
  - destruct (index_of d l) as [i|], (index_of m l) as [j|]; try done.
    intros Hlt%bool_decide_eq_true. by exists i, j.
  - intros (i & j & -> & -> & Hlt). by apply bool_decide_eq_true.
Qed.

Lemma for_each_ext {A S} (f g : A → S → outcome S) xs s :
  (∀ x s', x ∈ xs → f x s' = g x s') → for_each f xs s = for_each g xs s.
Proof.
  revert s. induction xs as [|x xs IH]; intros s Hfg; simpl; [done|].
  rewrite Hfg by (apply elem_of_cons; by left).
  destruct (g x s); [|done..]. apply IH.
  intros x' s' Hx'. apply Hfg, elem_of_cons. by right.
Qed.

(** The sorter only iterates the dependency sets of registered modules. *)
Section IterationOrder.
Variable module_to_file : registry.
Variable dep_graph : graph.
Variables iter1 iter2 : gset string → list string.
Hypothesis iter_agree :
  ∀ k, k ∈ keys module_to_file →
       iter1 (deps_of dep_graph k) = iter2 (deps_of dep_graph k).

Lemma visit_ext fuel node st :
  node ∈ keys module_to_file →
  visit module_to_file dep_graph iter1 fuel node st
  = visit module_to_file dep_graph iter2 fuel node st.
Proof.
  revert node st. induction fuel as [|fuel IH]; intros node st Hnode; simpl; [done|].
  rewrite (iter_agree node Hnode).
  rewrite (for_each_ext
             (fun dep s => if dict_mem module_to_file dep
                           then visit module_to_file dep_graph iter1 fuel dep s
                           else Return s)
             (fun dep s => if dict_mem module_to_file dep
                           then visit module_to_file dep_graph iter2 fuel dep s
                           else Return s)); [done|].
  intros dep s' _. unfold dict_mem. case_bool_decide; [by apply IH|done].
Qed.

Lemma topological_sort_ext :
  _topological_sort module_to_file dep_graph iter1
  = _topological_sort module_to_file dep_graph iter2.
Proof.
  unfold _topological_sort.
  rewrite (for_each_ext
             (fun module s =>
                if bool_decide (module ∉ visited s)
                then visit module_to_file dep_graph iter1 (sort_fuel module_to_file) module s
                else Return s)
             (fun module s =>
                if bool_decide (module ∉ visited s)
                then visit module_to_file dep_graph iter2 (sort_fuel module_to_file) module s
                else Return s)); [done|].
  intros module s' Hmod. case_bool_decide; [by apply visit_ext|done].
Qed.
End IterationOrder.

Lemma diamond_checked_BC :
  forallb (diamond_check ["B"; "C"]) (permutations diamond_registry) = true.
Proof. vm_compute. reflexivity. Qed.

Lemma diamond_checked_CB :
  forallb (diamond_check ["C"; "B"]) (permutations diamond_registry) = true.
Proof. vm_compute. reflexivity. Qed.

(** Any order that lists each element once agrees, on the sets of the
    diamond, with one of the two orders of [{B, C}]. *)
Lemma diamond_iter_cases (set_iter : gset string → list string) reg :
  (∀ s, set_iter s ≡ₚ elements s) → reg ≡ₚ diamond_registry →
  ∃ bc, set_iter {[ "B"; "C" ]} = bc ∧
        (bc = ["B"; "C"] ∨ bc = ["C"; "B"]) ∧
        ∀ k, k ∈ keys reg →
             set_iter (deps_of diamond_graph k) = iter_bc bc (deps_of diamond_graph k).
Proof.
  intros Hiter Hreg. exists (set_iter {[ "B"; "C" ]}).
  assert (elements ({[ "B"; "C" ]} : gset string) = ["C"; "B"]) as HBC
    by (vm_compute; reflexivity).
  assert (set_iter {[ "D" ]} = ["D"]) as HD.
  { apply Permutation_singleton_r. by rewrite Hiter, elements_singleton. }
  assert (set_iter ∅ = []) as H0.
  { apply Permutation_nil_r. by rewrite Hiter, elements_empty. }
  split_and!; [done| |].
  - pose proof (Hiter {[ "B"; "C" ]}) as Hp. rewrite HBC in Hp.
    symmetry in Hp. apply Permutation_length_2_inv in Hp as [->| ->]; auto.
  - intros k Hk.
    assert (k ∈ keys diamond_registry) as Hk'.
    { unfold keys in *. by rewrite <-Hreg. }
    apply list_elem_of_In in Hk'. simpl in Hk'.
    destruct Hk' as [<-|[<-|[<-|[<-|[]]]]].
    + change (deps_of diamond_graph "A") with (default ∅ (diamond_graph !! "A")).
      replace (diamond_graph !! "A") with (Some ({[ "B"; "C" ]} : gset string))
        by (vm_compute; reflexivity).
      simpl. unfold iter_bc. by rewrite bool_decide_eq_true_2.
    + change (deps_of diamond_graph "B") with (default ∅ (diamond_graph !! "B")).
      replace (diamond_graph !! "B") with (Some ({[ "D" ]} : gset string))
        by (vm_compute; reflexivity).
      simpl. rewrite HD. vm_compute. reflexivity.
    + change (deps_of diamond_graph "C") with (default ∅ (diamond_graph !! "C")).
      replace (diamond_graph !! "C") with (Some ({[ "D" ]} : gset string))
        by (vm_compute; reflexivity).
      simpl. rewrite HD. vm_compute. reflexivity.
    + change (deps_of diamond_graph "D") with (default ∅ (diamond_graph !! "D")).
      replace (diamond_graph !! "D") with (Some (∅ : gset string))
        by (vm_compute; reflexivity).
      simpl. rewrite H0. vm_compute. reflexivity.
Qed.

(** C6, as the code has it: in the diamond, whatever the file order and
    whatever order the dependency sets are iterated in, the sort returns an
    order with [D] before [B] and [C] and both before [A]; [B] and [C] come
    in file order unless [A] is listed before both, and then in the order in
    which [A]'s dependency set is iterated. *)
Theorem diamond_order (set_iter : gset string → list string) (reg : registry) :
  (∀ s, set_iter s ≡ₚ elements s) →
  reg ≡ₚ diamond_registry →
  ∃ l, _topological_sort reg diamond_graph set_iter = Return l ∧
       precedes "D" "B" l ∧ precedes "D" "C" l ∧
       precedes "B" "A" l ∧ precedes "C" "A" l ∧
       (precedes "B" "C" l ↔
          if precedesb "A" "B" (keys reg) && precedesb "A" "C" (keys reg)
          then precedes "B" "C" (set_iter {[ "B"; "C" ]})
          else precedes "B" "C" (keys reg)).
Proof.
  intros Hiter Hreg.
  destruct (diamond_iter_cases set_iter reg Hiter Hreg) as (bc & Hbc & Hcases & Hagree).
  rewrite (topological_sort_ext reg diamond_graph set_iter (iter_bc bc) Hagree), Hbc.
  assert (diamond_check bc reg = true) as Hcheck.
  { symmetry in Hreg.
    apply permutations_Permutation in Hreg. apply list_elem_of_In in Hreg.
    destruct Hcases as [-> | ->].
    - by apply (proj1 (forallb_forall _ _) diamond_checked_BC).
    - by apply (proj1 (forallb_forall _ _) diamond_checked_CB). }
  unfold diamond_check in Hcheck.
  destruct (_topological_sort reg diamond_graph (iter_bc bc)) as [l| |]; [|done..].
  apply andb_prop in Hcheck as [Hcheck HBC%bool_decide_eq_true].
  apply andb_prop in Hcheck as [Hcheck HCA%precedesb_spec].
  apply andb_prop in Hcheck as [Hcheck HBA%precedesb_spec].
  apply andb_prop in Hcheck as [HDB%precedesb_spec HDC%precedesb_spec].
  exists l. split_and!; [done..|].
  rewrite <-precedesb_spec, HBC.
  destruct (precedesb "A" "B" (keys reg) && precedesb "A" "C" (keys reg));
    apply precedesb_spec.
Qed.

Lemma diamond_order_witness :
  ∃ l, _topological_sort diamond_registry diamond_graph elements = Return l ∧
       precedes "D" "B" l ∧ precedes "D" "C" l ∧
       precedes "B" "A" l ∧ precedes "C" "A" l ∧
       (precedes "B" "C" l ↔
          if precedesb "A" "B" (keys diamond_registry)
             && precedesb "A" "C" (keys diamond_registry)
          then precedes "B" "C" (elements ({[ "B"; "C" ]} : gset string))
          else precedes "B" "C" (keys diamond_registry)).
Proof.
  apply (diamond_order elements diamond_registry).
  - reflexivity.
  - reflexivity.
Defined.

(** C6 as stated fails: with [B] listed before [C], a run in which [A]'s
    set is iterated as [C, B] outputs [C] before [B], and a run over the
    same files in which it is iterated as [B, C] outputs [B] before [C]. *)
Lemma diamond_order_follows_set_iteration :
  precedes "B" "C" (keys diamond_registry) ∧
  _topological_sort diamond_registry diamond_graph (iter_bc ["C"; "B"])
  = Return ["D"; "C"; "B"; "A"] ∧
  ¬ precedes "B" "C" ["D"; "C"; "B"; "A"] ∧
  _topological_sort diamond_registry diamond_graph (iter_bc ["B"; "C"])
  = Return ["D"; "B"; "C"; "A"].
Proof.
  split_and!.
  - by apply precedesb_spec.
  - vm_compute. reflexivity.
  - by intros Hp%precedesb_spec.
  - vm_compute. reflexivity.
Qed.

(** * Further properties *)

(** ** Lookups in the registry *)

Lemma dict_get_set_eq d k v : dict_get (dict_set d k v) k = Return v.
Proof.
  induction d as [|[k0 v0] d IH]; simpl.
  - by rewrite bool_decide_eq_true_2.
  - destruct (decide (k0 = k)) as [->|Hne].
    + rewrite bool_decide_eq_true_2 by done. simpl.
      by rewrite bool_decide_eq_true_2.
    + rewrite bool_decide_eq_false_2 by done. simpl.
      by rewrite bool_decide_eq_false_2.
Qed.

Lemma dict_get_set_ne d k v k' : k' ≠ k → dict_get (dict_set d k v) k' = dict_get d k'.
Proof.
  intros Hne. induction d as [|[k0 v0] d IH]; simpl.
  - by rewrite bool_decide_eq_false_2.
  - destruct (decide (k0 = k)) as [->|Hne0].
    + rewrite bool_decide_eq_true_2 by done. simpl.
      by rewrite !bool_decide_eq_false_2.
    + rewrite (bool_decide_eq_false_2 (k0 = k)) by done. simpl.
      case_bool_decide; [done|apply IH].
Qed.

Lemma dict_get_elem d k v : NoDup (keys d) → (k, v) ∈ d → dict_get d k = Return v.
Proof.
  induction d as [|[k0 v0] d IH]; simpl; [by intros _ ?%elem_of_nil|].
  intros [Hk0 Hnd]%NoDup_cons [Heq|Hin]%elem_of_cons.
  - simplify_eq. by rewrite bool_decide_eq_true_2.
  - rewrite bool_decide_eq_false_2; [by apply IH|].
    intros ->. apply Hk0. apply list_elem_of_fmap. by exists (k, v).
Qed.

Lemma dict_get_missing d k : k ∉ keys d → dict_get d k = Raise (KeyError k).
Proof.
  induction d as [|[k0 v0] d IH]; simpl; [done|].
  intros [Hne Hout]%not_elem_of_cons.
  rewrite bool_decide_eq_false_2 by done. by apply IH.
Qed.

Section RegistryLookups.
Variable sep : ascii.
Variable relpath : string → string → string.
Variable base_dir : string.

#[local] Abbreviation name := (module_name_of sep relpath base_dir).
#[local] Abbreviation build files :=
  (_build_module_mapping sep relpath files base_dir).

Lemma build_keys_names files k :
  k ∈ keys (build files) ↔ k ∈ name <$> files.
Proof.
  split.
  - intros [[k' v] [-> Hin]]%list_elem_of_fmap.
    destruct (build_entries _ _ _ _ _ _ Hin) as [Hv ->].
    apply list_elem_of_fmap. by exists v.
  - induction files as [|f files IH] using rev_ind; [by intros ?%elem_of_nil|].
    rewrite build_snoc, fmap_app, dict_set_keys. simpl.
    intros [Hk| ->%list_elem_of_singleton]%elem_of_app.
    + case_bool_decide; [by apply IH|]. apply elem_of_app. left. by apply IH.
    + case_bool_decide; [done|]. apply elem_of_app. right. by apply list_elem_of_singleton.
Qed.

(** X1: of the files deriving one identity, the registry maps the identity
    to the last one listed. *)
Theorem registry_last_file_wins files1 f files2 :
  (∀ f', f' ∈ files2 → module_name_of sep relpath base_dir f'
                        ≠ module_name_of sep relpath base_dir f) →
  dict_get (_build_module_mapping sep relpath (files1 ++ f :: files2) base_dir)
           (module_name_of sep relpath base_dir f)
  = Return f.
Proof.
  induction files2 as [|f' files2 IH] using rev_ind; intros Hlater.
  - by rewrite build_snoc, dict_get_set_eq.
  - replace (files1 ++ f :: files2 ++ [f']) with ((files1 ++ f :: files2) ++ [f'])
      by (by rewrite <-app_assoc).
    rewrite build_snoc, dict_get_set_ne.
    + apply IH. intros f'' Hf''. apply Hlater, elem_of_app. by left.
    + intros Heq. eapply Hlater; [|by symmetry].
      apply elem_of_app. right. by apply list_elem_of_singleton.
Qed.

(** X2: the registry lists each identity once, in the order in which the
    identities first occur among the files. *)
Theorem registry_key_order files :
  keys (_build_module_mapping sep relpath files base_dir)
  = reverse (remove_dups (reverse (module_name_of sep relpath base_dir <$> files))).
Proof.
  induction files as [|f files IH] using rev_ind; [done|].
  rewrite build_snoc, dict_set_keys, fmap_app, reverse_app. simpl.
  destruct (decide_rel elem_of (name f) (reverse (name <$> files))) as [Hin|Hout].
  - rewrite bool_decide_eq_true_2; [done|].
    apply build_keys_names. by rewrite elem_of_reverse in Hin.
  - rewrite bool_decide_eq_false_2.
    + by rewrite reverse_cons, IH.
    + intros Hin%build_keys_names. apply Hout. by rewrite elem_of_reverse.
Qed.

(** X3: when distinct files derive distinct identities, a file's identity
    is found from the file and the file from its identity. *)
Theorem registry_round_trip files f :
  (∀ f1 f2, f1 ∈ files → f2 ∈ files →
            module_name_of sep relpath base_dir f1
            = module_name_of sep relpath base_dir f2 → f1 = f2) →
  f ∈ files →
  next_key (_build_module_mapping sep relpath files base_dir) f
  = Return (module_name_of sep relpath base_dir f) ∧
  dict_get (_build_module_mapping sep relpath files base_dir)
           (module_name_of sep relpath base_dir f)
  = Return f.
Proof.
  intros Hinj Hf.
  pose proof (build_registers_all sep relpath base_dir files f Hinj Hf) as Hreg.
  split.
  - destruct (next_key_registered _ _ _ Hreg) as [k Hk]. rewrite Hk.
    apply next_key_Return in Hk.
    by destruct (build_entries _ _ _ _ _ _ Hk) as [_ ->].
  - apply dict_get_elem; [apply build_NoDup|done].
Qed.
End RegistryLookups.

Lemma registry_last_file_wins_witness :
  dict_get (_build_module_mapping posix_sep relpath_id
              (["x.py"] ++ "a/b.py" :: ["a.b.py"; "c.py"]) "")
           (module_name_of posix_sep relpath_id "" "a.b.py")
  = Return "a.b.py".
Proof.
  apply (registry_last_file_wins posix_sep relpath_id "" ["x.py"; "a/b.py"] "a.b.py" ["c.py"]).
  intros f' ->%list_elem_of_singleton. vm_compute. discriminate.
Defined.

Lemma registry_round_trip_witness :
  next_key (_build_module_mapping posix_sep relpath_id pkg_files "") "pkg/x.py"
  = Return (module_name_of posix_sep relpath_id "" "pkg/x.py") ∧
  dict_get (_build_module_mapping posix_sep relpath_id pkg_files "")
           (module_name_of posix_sep relpath_id "" "pkg/x.py")
  = Return "pkg/x.py".
Proof.
  apply (registry_round_trip posix_sep relpath_id "" pkg_files "pkg/x.py").
  - intros f1 f2 H1%list_elem_of_In H2%list_elem_of_In Hname.
    simpl in H1, H2.
    destruct H1 as [<-|[<-|[<-|[<-|[]]]]], H2 as [<-|[<-|[<-|[<-|[]]]]];
      first [reflexivity | vm_compute in Hname; discriminate].
  - by_computation.
Defined.

(** ** Stripping the extension *)

Lemma string_app_nil (b : string) : "" +:+ b = b.
Proof. reflexivity. Qed.

Lemma string_app_cons x (a b : string) : String x a +:+ b = String x (a +:+ b).
Proof. reflexivity. Qed.

Lemma string_app_assoc (a b c : string) : (a +:+ b) +:+ c = a +:+ (b +:+ c).
Proof.
  induction a as [|x a IH]; [done|]. rewrite !string_app_cons. by rewrite IH.
Qed.

Lemma replace_app old new a b :
  replace old new (a +:+ b) = replace old new a +:+ replace old new b.
Proof.
  induction a as [|x a IH]; [done|].
  rewrite string_app_cons. simpl. by rewrite IH, string_app_cons.
Qed.

Lemma rstrip_all chars u :
  (∀ c, c ∈ list_ascii_of_string u → char_in c chars = true) → rstrip chars u = "".
Proof.
  induction u as [|x u IH]; simpl; [done|]. intros Hall.
  rewrite IH by (intros c Hc; apply Hall, elem_of_cons; by right).
  rewrite Hall; [done|]. apply elem_of_cons. by left.
Qed.

(** A tail made of stripped characters goes. *)
Lemma rstrip_app_tail chars t u :
  (∀ c, c ∈ list_ascii_of_string u → char_in c chars = true) →
  rstrip chars (t +:+ u) = rstrip chars t.
Proof.
  intros Hall. induction t as [|x t IH]; [by apply rstrip_all|].
  rewrite string_app_cons. simpl. by rewrite IH.
Qed.

(** A string ending in a character that is not stripped stays. *)
Lemma rstrip_kept chars t c :
  char_in c chars = false → rstrip chars (t +:+ String c "") = t +:+ String c "".
Proof.
  intros Hc. induction t as [|x t IH]; [simpl; by rewrite Hc|].
  rewrite string_app_cons. simpl. rewrite IH. by destruct t.
Qed.

(** What is left never ends in a stripped character. *)
Lemma rstrip_last chars t s c :
  rstrip chars t = s +:+ String c "" → char_in c chars = false.
Proof.
  revert s. induction t as [|x t IH]; intros s; simpl.
  { by destruct s. }
  destruct (rstrip chars t) as [|y r] eqn:Hr.
  - destruct (char_in x chars) eqn:Hx; [by destruct s|].
    destruct s as [|z [|??]]; rewrite ?string_app_cons, ?string_app_nil;
      intros [=]; by subst.
  - destruct s as [|z s]; rewrite ?string_app_cons, ?string_app_nil;
      [by intros [=]|].
    intros [= -> Hs]. by apply (IH s).
Qed.

Lemma char_in_py c :
  char_in c ".py" = false → c ≠ "."%char ∧ c ≠ "p"%char ∧ c ≠ "y"%char.
Proof.
  unfold char_in. intros Hc%bool_decide_eq_false. simpl in Hc.
  split_and!; intros ->; apply Hc; set_solver.
Qed.

Section Identities.
Variable sep : ascii.
Variable relpath : string → string → string.
Variable base_dir : string.

Lemma module_name_of_rel_path filepath :
  module_name_of sep relpath base_dir filepath
  = rstrip ".py" (replace sep "." (rel_path_of relpath base_dir filepath)).
Proof. reflexivity. Qed.

(** X4: for a path [<stem>.py] whose stem ends in a character other than
    the separator, ['.'], ['p'] and ['y'], the identity is the stem with its
    separators replaced, and nothing else is removed. *)
Theorem module_name_of_clean_stem filepath stem c :
  char_in sep ".py" = false →
  rel_path_of relpath base_dir filepath = stem +:+ String c ".py" →
  c ≠ sep → char_in c ".py" = false →
  module_name_of sep relpath base_dir filepath
  = replace sep "." stem +:+ String c "".
Proof.
  intros Hsep Hpath Hc Hkeep. rewrite module_name_of_rel_path, Hpath.
  destruct (char_in_py sep Hsep) as (Hdot & Hp & Hy).
  rewrite replace_app. simpl.
  rewrite (bool_decide_eq_false_2 (c = sep)) by done.
  rewrite !bool_decide_eq_false_2 by done.
  change (String c ".py") with (String c "" +:+ ".py").
  rewrite <-string_app_assoc, rstrip_app_tail.
  - by apply rstrip_kept.
  - intros x Hx. simpl in Hx. unfold char_in. apply bool_decide_eq_true. done.
Qed.

(** X5: no identity ends in ['.'], ['p'] or ['y'], so a name that does,
    such as [happy], is never a key of the registry and an [import] of it
    is never recorded as a dependency. *)
Theorem names_ending_in_stripped_characters_are_never_registered
    files stem c module_name dependencies :
  char_in c ".py" = true →
  (stem +:+ String c ""
     ∉ keys (_build_module_mapping sep relpath files base_dir)) ∧
  import_step (_build_module_mapping sep relpath files base_dir)
    module_name dependencies (Import [stem +:+ String c ""]) = dependencies.
Proof.
  intros Hc.
  assert (stem +:+ String c "" ∉ keys (_build_module_mapping sep relpath files base_dir))
    as Hout.
  { intros [[k v] [Hk Hin]]%list_elem_of_fmap. simpl in Hk.
    destruct (build_entries _ _ _ _ _ _ Hin) as [_ ->].
    symmetry in Hk. apply rstrip_last in Hk. congruence. }
  split; [done|]. apply import_step_unresolved.
  intros n ->%list_elem_of_singleton. done.
Qed.
End Identities.

Lemma module_name_of_clean_stem_witness :
  module_name_of posix_sep relpath_id "" "pkg/sub/mod.py"
  = replace posix_sep "." "pkg/sub/mo" +:+ String "d" "".
Proof.
  apply (module_name_of_clean_stem posix_sep relpath_id "" "pkg/sub/mod.py" "pkg/sub/mo" "d").
  - reflexivity.
  - reflexivity.
  - discriminate.
  - reflexivity.
Defined.

Lemma names_ending_in_stripped_characters_are_never_registered_witness :
  ("happ" +:+ String "y" ""
     ∉ keys (_build_module_mapping posix_sep relpath_id ["happy.py"; "main.py"] "")) ∧
  import_step (_build_module_mapping posix_sep relpath_id ["happy.py"; "main.py"] "")
    "main" ∅ (Import ["happ" +:+ String "y" ""]) = ∅.
Proof.
  apply (names_ending_in_stripped_characters_are_never_registered
           posix_sep relpath_id "" ["happy.py"; "main.py"] "happ" "y" "main" ∅).
  reflexivity.
Defined.

(** ** What an extraction collects *)

Section ImportsCollected.
Variable module_to_file : registry.

#[local] Abbreviation step := (import_step module_to_file).

Lemma import_names_elem names (dependencies : gset string) x :
  x ∈ foldl (fun deps full_module =>
               if dict_mem module_to_file full_module
               then deps ∪ {[full_module]} else deps) dependencies names
  ↔ x ∈ dependencies ∨ (x ∈ names ∧ x ∈ keys module_to_file).
Proof.
  revert dependencies. induction names as [|n names IH]; intros deps; simpl.
  { split; [auto|]. intros [?|[?%elem_of_nil _]]; done. }
  rewrite IH. unfold dict_mem. case_bool_decide as Hn.
  - rewrite elem_of_union, elem_of_singleton, elem_of_cons. naive_solver.
  - rewrite elem_of_cons. naive_solver.
Qed.

(** A node adds to what was collected, whatever that was. *)
Lemma import_step_additive module_name dependencies node :
  step module_name dependencies node = dependencies ∪ step module_name ∅ node.
Proof.
  apply set_eq. intros x. rewrite elem_of_union.
  destruct node as [names|module level|]; simpl.
  - rewrite !import_names_elem. set_solver.
  - repeat case_match; set_solver.
  - set_solver.
Qed.

(** What a node contributes on its own is in the set at the end. *)
Lemma import_loop_contains module_name nodes dependencies node x :
  node ∈ nodes → x ∈ step module_name ∅ node →
  x ∈ foldl (step module_name) dependencies nodes.
Proof.
  revert dependencies. induction nodes as [|n nodes IH]; intros deps; simpl.
  { by intros ?%elem_of_nil. }
  intros [->|Hnode]%elem_of_cons Hx; [|by apply IH].
  assert (step module_name deps n ⊆ foldl (step module_name) (step module_name deps n) nodes)
    as Hmono.
  { clear. generalize (step module_name deps n). intros s.
    induction nodes as [|n' nodes IH] in s |- *; simpl; [done|].
    etrans; [apply (import_step_mono module_to_file (λ _, inr []))|apply IH]. }
  apply Hmono. rewrite import_step_additive. set_solver.
Qed.

(** X6: the set extracted from a file is the union of what each import
    node contributes on its own, so the order in which the syntax tree is
    walked does not matter. *)
Theorem extraction_is_union_of_nodes module_name nodes dependencies x :
  x ∈ foldl (import_step module_to_file module_name) dependencies nodes
  ↔ x ∈ dependencies ∨
    ∃ node, node ∈ nodes ∧ x ∈ import_step module_to_file module_name ∅ node.
Proof.
  revert dependencies. induction nodes as [|node nodes IH]; intros deps; simpl.
  { split; [auto|]. intros [?|(? & ?%elem_of_nil & _)]; done. }
  rewrite IH, import_step_additive, elem_of_union. split.
  - intros [[?|?]|(n & Hn & Hx)]; [by left|right..].
    + exists node. split; [apply elem_of_cons; by left|done].
    + exists n. split; [apply elem_of_cons; by right|done].
  - intros [?|(n & [->|Hn]%elem_of_cons & Hx)]; [by left; left|by left; right|].
    right. by exists n.
Qed.

(** X7: an [import] statement adds exactly those of its names that are
    registry identities, and an absolute [from m import ...] adds [m]
    exactly when [m] is one. *)
Theorem absolute_imports_collected module_name dependencies names m x :
  (x ∈ import_step module_to_file module_name dependencies (Import names)
   ↔ x ∈ dependencies ∨ (x ∈ names ∧ x ∈ keys module_to_file)) ∧
  (x ∈ import_step module_to_file module_name dependencies (ImportFrom (Some m) 0)
   ↔ x ∈ dependencies ∨ (x = m ∧ m ≠ "" ∧ m ∈ keys module_to_file)).
Proof.
  split; [apply import_names_elem|]. simpl. unfold dict_mem.
  destruct (decide (m = "")) as [->|Hne].
  - rewrite (bool_decide_eq_false_2 ("" ≠ "")) by (intros H; by apply H).
    simpl. naive_solver.
  - rewrite (bool_decide_eq_true_2 (m ≠ "")) by done. simpl.
    case_bool_decide.
    + rewrite elem_of_union, elem_of_singleton. naive_solver.
    + naive_solver.
Qed.
End ImportsCollected.

(** ** Relative references in general *)

Lemma split_no_sep sep s : char_in sep s = false → split sep s = [s].
Proof.
  unfold char_in. intros Hs%bool_decide_eq_false.
  induction s as [|c s IH]; simpl; [done|]. simpl in Hs.
  apply not_elem_of_cons in Hs as [Hne Hs].
  rewrite bool_decide_eq_false_2 by done. by rewrite IH.
Qed.

Lemma split_app_sep sep s t :
  char_in sep s = false → split sep (s +:+ String sep t) = s :: split sep t.
Proof.
  unfold char_in. intros Hs%bool_decide_eq_false.
  induction s as [|c s IH]; simpl.
  - by rewrite bool_decide_eq_true_2.
  - simpl in Hs. apply not_elem_of_cons in Hs as [Hne Hs].
    rewrite bool_decide_eq_false_2 by done. by rewrite IH.
Qed.

Lemma join_cons (sep p : string) ps :
  ps ≠ [] → join sep (p :: ps) = p +:+ sep +:+ join sep ps.
Proof. by destruct ps. Qed.

(** Splitting undoes joining, for segments without a dot. *)
Lemma split_join segs :
  segs ≠ [] → Forall (λ s, char_in "." s = false) segs →
  split "." (join "." segs) = segs.
Proof.
  induction segs as [|p ps IH]; [done|]. intros _ [Hp Hps]%Forall_cons.
  destruct ps as [|q ps]; [by apply split_no_sep|].
  rewrite join_cons by done.
  change ("." +:+ join "." (q :: ps)) with (String "." (join "." (q :: ps))).
  rewrite split_app_sep by done. by rewrite IH.
Qed.

Lemma join_snoc ps (m : string) :
  ps ≠ [] → join "." (ps ++ [m]) = join "." ps +:+ "." +:+ m.
Proof.
  induction ps as [|p ps IH]; [done|]. intros _.
  destruct ps as [|q ps]; [done|].
  change ((p :: q :: ps) ++ [m]) with (p :: ((q :: ps) ++ [m])).
  rewrite (join_cons "." p ((q :: ps) ++ [m])) by done.
  rewrite IH by done. rewrite (join_cons "." p (q :: ps)) by done.
  by rewrite !string_app_assoc.
Qed.

Lemma join_nonempty ps :
  ps ≠ [] → Forall (λ s, s ≠ "") ps → join "." ps ≠ "".
Proof.
  destruct ps as [|p ps]; [done|]. intros _ [Hp _]%Forall_cons.
  destruct ps as [|q ps]; [done|].
  rewrite join_cons by done. by destruct p.
Qed.

(** X8: in a module whose identity is the segments [parents] followed by
    the segments [dropped], a relative reference to [module] at level
    [length dropped] stands for [parents] followed by [module]: level 1
    replaces the module's own name, each further level goes one package up. *)
Theorem relative_candidate_drops_segments parents dropped module :
  Forall (λ s, char_in "." s = false) (parents ++ dropped) →
  Forall (λ s, s ≠ "") parents →
  dropped ≠ [] →
  relative_candidate (join "." (parents ++ dropped)) module (length dropped)
  = Some (join "." (parents ++ [module])).
Proof.
  intros Hdots Hparents Hdropped. unfold relative_candidate.
  rewrite split_join; [|by destruct parents, dropped|done].
  rewrite length_app.
  assert (0 < length dropped) as Hpos by (destruct dropped; [done|simpl; lia]).
  rewrite (bool_decide_eq_true_2 (length dropped ≤ _)) by lia.
  rewrite (bool_decide_eq_true_2 (0 < _)) by done.
  replace (length parents + length dropped - length dropped) with (length parents)
    by lia.
  rewrite take_app_length. f_equal.
  destruct parents as [|p ps]; [done|].
  rewrite bool_decide_eq_true_2 by (by apply join_nonempty).
  by rewrite join_snoc.
Qed.

Lemma relative_candidate_drops_segments_witness :
  relative_candidate (join "." (["pkg"] ++ ["sub"; "mod"])) "x" (length ["sub"; "mod"])
  = Some (join "." (["pkg"] ++ ["x"])).
Proof.
  apply (relative_candidate_drops_segments ["pkg"] ["sub"; "mod"] "x").
  - repeat constructor.
  - repeat constructor; discriminate.
  - discriminate.
Defined.

(** ** The graph of a run *)

Lemma extracted_registered module_to_file parse module_name filepath x :
  x ∈ extracted module_to_file parse module_name filepath →
  x ∈ keys module_to_file.
Proof.
  unfold extracted. destruct (parse filepath) as [e|nodes]; [set_solver|].
  intros [Hx|Hx]%import_loop_sound; [set_solver|done].
Qed.

Section GraphOfRun.
Variable sep : ascii.
Variable relpath : string → string → string.
Variable parse : extractor.
Variable set_iter : gset string → list string.
Hypothesis set_iter_elem : ∀ s x, x ∈ set_iter s ↔ x ∈ s.
Variable base_dir : string.

#[local] Abbreviation name := (module_name_of sep relpath base_dir).
#[local] Abbreviation build files :=
  (_build_module_mapping sep relpath files base_dir).

(** With distinct identities the builder returns, and its graph has the
    extracted set of each file and nothing else. *)
Lemma graph_of_distinct_identities files :
  (∀ f1 f2, f1 ∈ files → f2 ∈ files → name f1 = name f2 → f1 = f2) →
  ∃ g out,
    _build_dependency_graph (build files) parse files = (Return g, out) ∧
    (∀ f, f ∈ files →
          g !! name f = Some (extracted (build files) parse (name f) f)) ∧
    (∀ k, k ∉ keys (build files) → g !! k = None).
Proof.
  intros Hinj.
  destruct (build_loop_returns (build files) parse name files ∅)
    as (g & out & Hbuild & Hg & Hkeep & _).
  { apply build_NoDup. }
  { intros k v Hkv. by destruct (build_entries _ _ _ _ _ _ Hkv). }
  { intros f' Hf'. by apply build_registers_all. }
  exists g, out. split_and!; [done..|].
  intros k Hk. rewrite Hkeep; [done|].
  intros f Hf <-. apply Hk, build_keys_names, list_elem_of_fmap. by exists f.
Qed.

(** X9: over files with distinct identities, the graph has an entry for
    exactly the identities of the registry, and every dependency in it is an
    identity of the registry. *)
Theorem dependency_graph_is_over_registry files :
  (∀ f1 f2, f1 ∈ files → f2 ∈ files →
            module_name_of sep relpath base_dir f1
            = module_name_of sep relpath base_dir f2 → f1 = f2) →
  ∃ g out,
    _build_dependency_graph (_build_module_mapping sep relpath files base_dir)
      parse files = (Return g, out) ∧
    (∀ k, is_Some (g !! k)
          ↔ k ∈ keys (_build_module_mapping sep relpath files base_dir)) ∧
    (∀ k deps x, g !! k = Some deps → x ∈ deps →
                 x ∈ keys (_build_module_mapping sep relpath files base_dir)).
Proof.
  intros Hinj.
  destruct (graph_of_distinct_identities files Hinj) as (g & out & Hbuild & Hg & Hnone).
  assert (∀ k, k ∈ keys (build files) → ∃ f, f ∈ files ∧ k = name f) as Hkeys.
  { intros k [f [-> Hf]]%build_keys_names%list_elem_of_fmap. by exists f. }
  exists g, out. split_and!; [done| |].
  - intros k. split.
    + intros [deps Hk]. destruct (decide (k ∈ keys (build files))) as [|Hout]; [done|].
      by rewrite (Hnone k Hout) in Hk.
    + intros (f & Hf & ->)%Hkeys. rewrite (Hg f Hf). by eexists.
  - intros k deps x Hk Hx.
    destruct (decide (k ∈ keys (build files))) as [Hin|Hout].
    + destruct (Hkeys k Hin) as (f & Hf & ->). rewrite (Hg f Hf) in Hk.
      simplify_eq. by eapply extracted_registered.
    + by rewrite (Hnone k Hout) in Hk.
Qed.

(** Two distinct files with one identity stop the run. *)
Lemma duplicate_identity_raises files f1 f2 :
  f1 ∈ files → f2 ∈ files → f1 ≠ f2 → name f1 = name f2 →
  ∃ out, get_sorted_files sep relpath parse set_iter files base_dir
         = (Raise StopIteration, out).
Proof.
  intros H1 H2 Hne Hname.
  assert (∃ f, f ∈ files ∧ ∀ k, (k, f) ∉ build files) as (f & Hf & Hno).
  { destruct (next_key_cases (build files) f1) as [[k1 Hk1]|[_ Hno1]];
      [|by exists f1].
    apply next_key_Return in Hk1. exists f2. split; [done|].
    intros k2 Hk2. apply Hne.
    destruct (build_entries _ _ _ _ _ _ Hk1) as [_ ->].
    destruct (build_entries _ _ _ _ _ _ Hk2) as [_ ->].
    rewrite Hname in Hk1. by eapply build_functional. }
  unfold get_sorted_files, _build_dependency_graph.
  destruct (build_loop_stops (build files) parse files ∅ f Hf Hno) as [out ->].
  by exists out.
Qed.

(** X10: a run returns a list exactly when distinct files derive distinct
    identities, and ends in [StopIteration] exactly when two distinct files
    derive one identity. *)
Theorem run_returns_iff_identities_distinct files :
  ((∀ f1 f2, f1 ∈ files → f2 ∈ files →
             module_name_of sep relpath base_dir f1
             = module_name_of sep relpath base_dir f2 → f1 = f2)
   ↔ ∃ paths out,
       get_sorted_files sep relpath parse set_iter files base_dir
       = (Return paths, out)) ∧
  (¬ (∀ f1 f2, f1 ∈ files → f2 ∈ files →
               module_name_of sep relpath base_dir f1
               = module_name_of sep relpath base_dir f2 → f1 = f2)
   ↔ ∃ out,
       get_sorted_files sep relpath parse set_iter files base_dir
       = (Raise StopIteration, out)) ∧
  ((∃ f1 f2, f1 ∈ files ∧ f2 ∈ files ∧ f1 ≠ f2 ∧
             module_name_of sep relpath base_dir f1
             = module_name_of sep relpath base_dir f2)
   ↔ ∃ out,
       get_sorted_files sep relpath parse set_iter files base_dir
       = (Raise StopIteration, out)).
Proof.
  assert ((∀ f1 f2, f1 ∈ files → f2 ∈ files → name f1 = name f2 → f1 = f2) →
          ∃ paths out,
            get_sorted_files sep relpath parse set_iter files base_dir
            = (Return paths, out)) as Hreturns.
  { intros Hinj.
    destruct (graph_of_distinct_identities files Hinj) as (g & out & Hbuild & _).
    destruct (sorted_or_empty_returns set_iter set_iter_elem (build files) g)
      as (paths & out' & Hsorted).
    exists paths, (out ++ out'). unfold get_sorted_files. cbv zeta.
    by rewrite Hbuild, bind_Return, Hsorted. }
  destruct (decide (Exists (λ f1, Exists (λ f2, f1 ≠ f2 ∧ name f1 = name f2) files)
                      files)) as [Hdup|Hnodup].
  - apply Exists_exists in Hdup as (f1 & H1 & Hdup).
    apply Exists_exists in Hdup as (f2 & H2 & Hne & Hname).
    destruct (duplicate_identity_raises files f1 f2 H1 H2 Hne Hname) as [out Hraise].
    split_and!; split.
    + intros Hinj. by destruct (Hne (Hinj f1 f2 H1 H2 Hname)).
    + intros (paths & out' & Hrun). rewrite Hraise in Hrun. discriminate.
    + intros _. by exists out.
    + intros _ Hinj. by destruct (Hne (Hinj f1 f2 H1 H2 Hname)).
    + intros _. by exists out.
    + intros _. by exists f1, f2.
  - assert (∀ f1 f2, f1 ∈ files → f2 ∈ files → name f1 = name f2 → f1 = f2) as Hinj.
    { intros f1 f2 H1 H2 Hname. destruct (decide (f1 = f2)) as [|Hne]; [done|].
      destruct Hnodup. apply Exists_exists. exists f1. split; [done|].
      apply Exists_exists. by exists f2. }
    destruct (Hreturns Hinj) as (paths & out & Hrun).
    split_and!; split.
    + intros _. by exists paths, out.
    + by intros _.
    + intros Hno. by destruct Hno.
    + intros [out' Hraise]. rewrite Hraise in Hrun. discriminate.
    + intros (f1 & f2 & H1 & H2 & Hne & Hname). by destruct (Hne (Hinj f1 f2 H1 H2 Hname)).
    + intros [out' Hraise]. rewrite Hraise in Hrun. discriminate.
Qed.
End GraphOfRun.

Lemma dependency_graph_is_over_registry_witness :
  ∃ g out,
    _build_dependency_graph (_build_module_mapping posix_sep relpath_id ["a.py"; "b.py"] "")
      broken_parse ["a.py"; "b.py"] = (Return g, out) ∧
    (∀ k, is_Some (g !! k)
          ↔ k ∈ keys (_build_module_mapping posix_sep relpath_id ["a.py"; "b.py"] "")) ∧
    (∀ k deps x, g !! k = Some deps → x ∈ deps →
                 x ∈ keys (_build_module_mapping posix_sep relpath_id ["a.py"; "b.py"] "")).
Proof.
  apply (dependency_graph_is_over_registry posix_sep relpath_id broken_parse ""
           ["a.py"; "b.py"]).
  intros f1 f2 H1%list_elem_of_In H2%list_elem_of_In Hname.
  simpl in H1, H2.
  destruct H1 as [<-|[<-|[]]], H2 as [<-|[<-|[]]];
    first [reflexivity | vm_compute in Hname; discriminate].
Defined.

Lemma run_returns_iff_identities_distinct_witness :
  ((∀ f1 f2, f1 ∈ ["a/b.py"; "a.b.py"] → f2 ∈ ["a/b.py"; "a.b.py"] →
             module_name_of posix_sep relpath_id "" f1
             = module_name_of posix_sep relpath_id "" f2 → f1 = f2)
   ↔ ∃ paths out,
       get_sorted_files posix_sep relpath_id broken_parse elements
         ["a/b.py"; "a.b.py"] "" = (Return paths, out)) ∧
  (¬ (∀ f1 f2, f1 ∈ ["a/b.py"; "a.b.py"] → f2 ∈ ["a/b.py"; "a.b.py"] →
               module_name_of posix_sep relpath_id "" f1
               = module_name_of posix_sep relpath_id "" f2 → f1 = f2)
   ↔ ∃ out,
       get_sorted_files posix_sep relpath_id broken_parse elements
         ["a/b.py"; "a.b.py"] "" = (Raise StopIteration, out)) ∧
  ((∃ f1 f2, f1 ∈ ["a/b.py"; "a.b.py"] ∧ f2 ∈ ["a/b.py"; "a.b.py"] ∧ f1 ≠ f2 ∧
             module_name_of posix_sep relpath_id "" f1
             = module_name_of posix_sep relpath_id "" f2)
   ↔ ∃ out,
       get_sorted_files posix_sep relpath_id broken_parse elements
         ["a/b.py"; "a.b.py"] "" = (Raise StopIteration, out)).
Proof.
  apply (run_returns_iff_identities_distinct posix_sep relpath_id broken_parse elements
           (λ s x, elem_of_elements s x) "" ["a/b.py"; "a.b.py"]).
Defined.

(** ** An order that is already right *)

Lemma index_of_app_r x l l' :
  x ∉ l → index_of x (l ++ l') = (λ i, length l + i) <$> index_of x l'.
Proof.
  induction l as [|y l IH]; intros Hx; simpl.
  - by destruct (index_of x l').
  - apply not_elem_of_cons in Hx as [Hne Hx].
    rewrite bool_decide_eq_false_2 by done. rewrite IH by done.
    by destruct (index_of x l').
Qed.

(** In a list without repetition, what precedes [m] is in front of it. *)
Lemma precedes_in_front d m l1 l2 :
  m ∉ l1 → precedes d m (l1 ++ m :: l2) → d ∈ l1.
Proof.
  intros Hm (i & j & Hi & Hj & Hlt).
  rewrite index_of_app_r in Hj by done. simpl in Hj.
  rewrite bool_decide_eq_true_2 in Hj by done. simpl in Hj. simplify_eq.
  destruct (decide (d ∈ l1)) as [|Hd]; [done|].
  rewrite index_of_app_r in Hi by done.
  destruct (index_of d (m :: l2)) as [k|]; simpl in Hi; simplify_eq. lia.
Qed.

Lemma for_each_unchanged {A S} (body : A → S → outcome S) xs s :
  (∀ x, x ∈ xs → body x s = Return s) → for_each body xs s = Return s.
Proof.
  induction xs as [|x xs IH]; intros Hbody; simpl; [done|].
  rewrite Hbody by (apply elem_of_cons; by left).
  apply IH. intros x' Hx'. apply Hbody, elem_of_cons. by right.
Qed.

Section SortedInput.
Variable module_to_file : registry.
Variable dep_graph : graph.
Variable set_iter : gset string → list string.
Hypothesis set_iter_elem : ∀ s x, x ∈ set_iter s ↔ x ∈ s.
Hypothesis keys_distinct : NoDup (keys module_to_file).
Hypothesis keys_sorted :
  ∀ m d, m ∈ keys module_to_file → d ∈ keys module_to_file →
         d ∈ deps_of dep_graph m → precedes d m (keys module_to_file).

(** Visiting the next module of such a registry appends it and nothing
    else: its dependencies have all been output. *)
Lemma visit_next_module ks1 m ks2 st :
  keys module_to_file = ks1 ++ m :: ks2 →
  visited st = list_to_set ks1 → temp_mark st = ∅ → sorted_modules st = ks1 →
  ∃ st',
    visit module_to_file dep_graph set_iter (sort_fuel module_to_file) m st
    = Return st' ∧
    visited st' = list_to_set (ks1 ++ [m]) ∧ temp_mark st' = ∅ ∧
    sorted_modules st' = ks1 ++ [m].
Proof.
  intros Hkeys Hvis Hmark Hout.
  assert (m ∉ ks1) as Hm.
  { rewrite Hkeys in keys_distinct.
    apply NoDup_app in keys_distinct as (_ & Hdisj & _).
    intros Hin. apply (Hdisj m Hin). apply elem_of_cons. by left. }
  assert (m ∈ keys module_to_file) as Hmk.
  { rewrite Hkeys. apply elem_of_app. right. apply elem_of_cons. by left. }
  assert (∃ fuel, sort_fuel module_to_file = S (S fuel)) as [fuel ->].
  { unfold sort_fuel. destruct module_to_file; [by destruct ks1|by eexists]. }
  cbn [visit].
  rewrite (bool_decide_eq_false_2 (m ∈ temp_mark st)) by (rewrite Hmark; set_solver).
  rewrite (bool_decide_eq_true_2 (m ∉ visited st)) by (rewrite Hvis; set_solver).
  rewrite for_each_unchanged.
  - cbn [temp_mark visited sorted_modules].
    rewrite bool_decide_eq_true_2 by set_solver.
    eexists. split; [done|]. cbn [temp_mark visited sorted_modules].
    rewrite Hvis, Hmark, Hout. split_and!; [|set_solver|done].
    rewrite list_to_set_app_L. set_solver.
  - intros d Hd%set_iter_elem. unfold dict_mem. case_bool_decide as Hdk; [|done].
    assert (d ∈ ks1) as Hd1.
    { apply (precedes_in_front d m ks1 ks2 Hm). rewrite <-Hkeys.
      by apply keys_sorted. }
    assert (d ≠ m) as Hne by (intros ->; done).
    cbn [visit temp_mark visited].
    rewrite bool_decide_eq_false_2.
    2:{ rewrite Hmark, elem_of_union, elem_of_singleton.
        intros [?%elem_of_empty|?]; done. }
    rewrite bool_decide_eq_false_2; [done|].
    intros Hnv. apply Hnv. rewrite Hvis. by apply elem_of_list_to_set.
Qed.

Lemma modules_loop_sorted ks2 : ∀ ks1 st,
  keys module_to_file = ks1 ++ ks2 →
  visited st = list_to_set ks1 → temp_mark st = ∅ → sorted_modules st = ks1 →
  ∃ st',
    for_each (fun module s =>
                if bool_decide (module ∉ visited s)
                then visit module_to_file dep_graph set_iter
                       (sort_fuel module_to_file) module s
                else Return s) ks2 st = Return st' ∧
    sorted_modules st' = keys module_to_file.
Proof.
  induction ks2 as [|m ks2 IH]; intros ks1 st Hkeys Hvis Hmark Hout;
    cbn [for_each].
  { exists st. by rewrite Hout, Hkeys, app_nil_r. }
  assert (m ∉ ks1) as Hm.
  { rewrite Hkeys in keys_distinct.
    apply NoDup_app in keys_distinct as (_ & Hdisj & _).
    intros Hin. apply (Hdisj m Hin). apply elem_of_cons. by left. }
  rewrite (bool_decide_eq_true_2 (m ∉ visited st)) by (rewrite Hvis; set_solver).
  destruct (visit_next_module ks1 m ks2 st Hkeys Hvis Hmark Hout)
    as (st' & -> & Hvis' & Hmark' & Hout').
  apply (IH (ks1 ++ [m])); [by rewrite <-app_assoc|done..].
Qed.

(** X11: when the registry already lists every module after its
    dependencies, the sort returns the identities in the order of the
    registry. *)
Theorem sorted_registry_is_unchanged :
  _topological_sort module_to_file dep_graph set_iter
  = Return (keys module_to_file).
Proof.
  unfold _topological_sort.
  destruct (modules_loop_sorted (keys module_to_file) [] (SortState ∅ ∅ []))
    as (st & -> & Hout); [done..|]. by rewrite Hout.
Qed.
End SortedInput.

Lemma sorted_registry_is_unchanged_witness :
  _topological_sort chain_registry_sorted chain_graph elements
  = Return (keys chain_registry_sorted).
Proof.
  apply (sorted_registry_is_unchanged chain_registry_sorted chain_graph elements).
  - intros s x. apply elem_of_elements.
  - by_computation.
  - intros m d Hm%list_elem_of_In Hd%list_elem_of_In Hdep.
    apply (bool_decide_pack _) in Hdep.
    simpl in Hm, Hd.
    destruct Hm as [<-|[<-|[<-|[]]]], Hd as [<-|[<-|[<-|[]]]];
      first [ by (apply precedesb_spec; vm_compute)
            | by (vm_compute in Hdep) ].
Defined.

(** ** The result of a run *)

Lemma dict_get_Return d k v : dict_get d k = Return v → (k, v) ∈ d.
Proof.
  induction d as [|[k0 v0] d IH]; simpl; [done|].
  case_bool_decide as Heq.
  - intros [= <-]. subst. apply elem_of_cons. by left.
  - intros Hk. apply elem_of_cons. right. by apply IH.
Qed.

Lemma paths_of_Return d l paths :
  paths_of d l = Return paths → Forall2 (λ m p, (m, p) ∈ d) l paths.
Proof.
  revert paths. induction l as [|m l IH]; intros paths; simpl.
  { intros [= <-]. constructor. }
  destruct (dict_get d m) as [p| |] eqn:Hp; [|done..].
  destruct (paths_of d l) as [ps| |]; [|done..].
  intros [= <-]. constructor; [by apply dict_get_Return|by apply IH].
Qed.

(** Translating identities to paths keeps positions, in a registry that
    gives each identity one path and each path one identity. *)
Section Translation.
Variable d : registry.
Hypothesis one_path : ∀ k v1 v2, (k, v1) ∈ d → (k, v2) ∈ d → v1 = v2.
Hypothesis one_key : ∀ k1 k2 v, (k1, v) ∈ d → (k2, v) ∈ d → k1 = k2.

Lemma translation_index l paths m p :
  Forall2 (λ m p, (m, p) ∈ d) l paths → (m, p) ∈ d →
  index_of p paths = index_of m l.
Proof.
  intros Hall Hmp. induction Hall as [|m0 p0 l paths H0 Hall IH]; simpl; [done|].
  destruct (decide (m0 = m)) as [->|Hne].
  - rewrite !bool_decide_eq_true_2; [done..|]. by eapply one_path.
  - rewrite !bool_decide_eq_false_2; [by rewrite IH|done|].
    intros ->. apply Hne. by eapply one_key.
Qed.

Lemma translation_precedes l paths m1 p1 m2 p2 :
  Forall2 (λ m p, (m, p) ∈ d) l paths → (m1, p1) ∈ d → (m2, p2) ∈ d →
  precedes m1 m2 l → precedes p1 p2 paths.
Proof.
  intros Hall H1 H2 (i & j & Hi & Hj & Hlt). exists i, j.
  by rewrite (translation_index l paths m1 p1), (translation_index l paths m2 p2).
Qed.

Lemma translation_elem l paths p :
  Forall2 (λ m p, (m, p) ∈ d) l paths →
  p ∈ paths ↔ ∃ m, m ∈ l ∧ (m, p) ∈ d.
Proof.
  intros Hall. induction Hall as [|m0 p0 l paths H0 Hall IH].
  { split; [by intros ?%elem_of_nil|by intros (? & ?%elem_of_nil & _)]. }
  rewrite elem_of_cons, IH. split.
  - intros [->|(m & Hm & Hmp)].
    + exists m0. split; [apply elem_of_cons; by left|done].
    + exists m. split; [apply elem_of_cons; by right|done].
  - intros (m & [->|Hm]%elem_of_cons & Hmp).
    + left. by eapply one_path.
    + right. by exists m.
Qed.

Lemma translation_NoDup l paths :
  Forall2 (λ m p, (m, p) ∈ d) l paths → NoDup l → NoDup paths.
Proof.
  intros Hall. induction Hall as [|m0 p0 l paths H0 Hall IH]; [constructor|].
  intros [Hm0 Hnd]%NoDup_cons. apply NoDup_cons. split; [|by apply IH].
  intros (m & Hm & Hmp)%(translation_elem l paths p0 Hall).
  assert (m = m0) as -> by by eapply one_key. done.
Qed.
End Translation.

Section ResultOfRun.
Variable sep : ascii.
Variable relpath : string → string → string.
Variable parse : extractor.
Variable set_iter : gset string → list string.
Hypothesis set_iter_elem : ∀ s x, x ∈ set_iter s ↔ x ∈ s.
Variable base_dir : string.

#[local] Abbreviation name := (module_name_of sep relpath base_dir).
#[local] Abbreviation build files :=
  (_build_module_mapping sep relpath files base_dir).

Lemma build_one_key files k1 k2 v :
  (k1, v) ∈ build files → (k2, v) ∈ build files → k1 = k2.
Proof.
  intros H1 H2.
  destruct (build_entries _ _ _ _ _ _ H1) as [_ ->].
  by destruct (build_entries _ _ _ _ _ _ H2) as [_ ->].
Qed.

(** X12: over files with distinct identities, a run either prints the
    circular-dependency error and returns the empty list, or returns every
    input file exactly once, each file after the files whose identities were
    extracted from it. *)
Theorem run_orders_files files :
  (∀ f1 f2, f1 ∈ files → f2 ∈ files →
            module_name_of sep relpath base_dir f1
            = module_name_of sep relpath base_dir f2 → f1 = f2) →
  ∃ paths out,
    get_sorted_files sep relpath parse set_iter files base_dir = (Return paths, out) ∧
    ((∃ c, paths = [] ∧ "Error: " +:+ cycle_message c ∈ out) ∨
     (NoDup paths ∧
      (∀ f, f ∈ paths ↔ f ∈ files) ∧
      ∀ f g, f ∈ files → g ∈ files →
             module_name_of sep relpath base_dir g
             ∈ extracted (_build_module_mapping sep relpath files base_dir) parse
                 (module_name_of sep relpath base_dir f) f →
             precedes g f paths)).
Proof.
  intros Hinj.
  destruct (graph_of_distinct_identities sep relpath parse base_dir files Hinj)
    as (g & out & Hbuild & Hg & _).
  pose proof (topological_sort_post (build files) g set_iter set_iter_elem) as Hpost.
  unfold get_sorted_files. cbv zeta. rewrite Hbuild, bind_Return.
  unfold sorted_or_empty.
  destruct (_topological_sort (build files) g set_iter) as [l|e|];
    simpl in Hpost; [| |done].
  - destruct Hpost as (Hnd & Hall & Hord).
    destruct (paths_of_registered (build files) l) as (paths & Hpaths & _).
    { intros m. apply Hall. }
    rewrite Hpaths. exists paths, (out ++ []). split; [done|]. right.
    apply paths_of_Return in Hpaths.
    pose proof (build_functional sep relpath base_dir files) as Hone.
    pose proof (build_one_key files) as Hkey.
    split_and!.
    + by eapply translation_NoDup.
    + intros f. rewrite (translation_elem (build files) Hone l paths f Hpaths). split.
      * intros (m & _ & Hmf). by destruct (build_entries _ _ _ _ _ _ Hmf).
      * intros Hf. exists (name f).
        pose proof (build_registers_all sep relpath base_dir files f Hinj Hf) as Hreg.
        split; [|done]. apply Hall, list_elem_of_fmap. by exists (name f, f).
    + intros f f' Hf Hf' Hdep.
      pose proof (build_registers_all sep relpath base_dir files f Hinj Hf) as Hreg.
      pose proof (build_registers_all sep relpath base_dir files f' Hinj Hf') as Hreg'.
      apply (translation_precedes (build files) Hone Hkey l paths (name f') f' (name f) f);
        [done..|].
      apply Hord.
      * apply list_elem_of_fmap. by exists (name f, f).
      * split; [|apply list_elem_of_fmap; by exists (name f', f')].
        unfold deps_of. by rewrite (Hg f Hf).
  - destruct Hpost as (c & -> & _).
    exists [], (out ++ ["Error: " +:+ cycle_message c]). split; [done|]. left.
    exists c. split; [done|]. apply elem_of_app. right. by apply list_elem_of_singleton.
Qed.

(** X13: a file that imports its own identity is a cycle of length one:
    over files with distinct identities, the run prints the
    circular-dependency error and returns the empty list. *)
Theorem self_import_empties_the_run files f nodes names :
  (∀ f1 f2, f1 ∈ files → f2 ∈ files →
            module_name_of sep relpath base_dir f1
            = module_name_of sep relpath base_dir f2 → f1 = f2) →
  f ∈ files → parse f = inr nodes → Import names ∈ nodes →
  module_name_of sep relpath base_dir f ∈ names →
  ∃ out c,
    get_sorted_files sep relpath parse set_iter files base_dir = (Return [], out) ∧
    "Error: " +:+ cycle_message c ∈ out.
Proof.
  intros Hinj Hf Hparse Hnode Hname.
  destruct (graph_of_distinct_identities sep relpath parse base_dir files Hinj)
    as (g & out & Hbuild & Hg & _).
  pose proof (build_registers_all sep relpath base_dir files f Hinj Hf) as Hreg.
  assert (name f ∈ keys (build files)) as Hkey.
  { apply list_elem_of_fmap. by exists (name f, f). }
  assert (on_cycle (build files) g (name f)) as Hcycle.
  { apply tc_once. split; [|done]. unfold deps_of. rewrite (Hg f Hf). simpl.
    unfold extracted. rewrite Hparse.
    apply (import_loop_contains _ _ _ _ (Import names)); [done|].
    apply import_names_elem. right. done. }
  pose proof (topological_sort_post (build files) g set_iter set_iter_elem) as Hpost.
  unfold get_sorted_files. cbv zeta. rewrite Hbuild, bind_Return.
  unfold sorted_or_empty.
  destruct (_topological_sort (build files) g set_iter) as [l|e|] eqn:Hsort;
    simpl in Hpost; [| |done].
  - by destruct (sort_return_acyclic (build files) g set_iter set_iter_elem l Hsort
                   (name f)).
  - destruct Hpost as (c & -> & _).
    exists (out ++ ["Error: " +:+ cycle_message c]), c. split; [done|].
    apply elem_of_app. right. by apply list_elem_of_singleton.
Qed.
End ResultOfRun.

Lemma files_distinct_identities (files : list string) :
  NoDup (module_name_of posix_sep relpath_id "" <$> files) →
  ∀ f1 f2, f1 ∈ files → f2 ∈ files →
           module_name_of posix_sep relpath_id "" f1
           = module_name_of posix_sep relpath_id "" f2 → f1 = f2.
Proof.
  induction files as [|f files IH]; [by intros _ ? ? ?%elem_of_nil|].
  rewrite fmap_cons. intros [Hf Hnd]%NoDup_cons f1 f2.
  intros [->|H1]%elem_of_cons [->|H2]%elem_of_cons Hname; [done| | |by apply IH].
  - destruct Hf. rewrite Hname. apply list_elem_of_fmap. by exists f2.
  - destruct Hf. rewrite <-Hname. apply list_elem_of_fmap. by exists f1.
Qed.

Lemma run_orders_files_witness :
  ∃ paths out,
    get_sorted_files posix_sep relpath_id broken_parse elements ["b.py"; "a.py"] ""
    = (Return paths, out) ∧
    ((∃ c, paths = [] ∧ "Error: " +:+ cycle_message c ∈ out) ∨
     (NoDup paths ∧
      (∀ f, f ∈ paths ↔ f ∈ ["b.py"; "a.py"]) ∧
      ∀ f g, f ∈ ["b.py"; "a.py"] → g ∈ ["b.py"; "a.py"] →
             module_name_of posix_sep relpath_id "" g
             ∈ extracted (_build_module_mapping posix_sep relpath_id ["b.py"; "a.py"] "")
                 broken_parse (module_name_of posix_sep relpath_id "" f) f →
             precedes g f paths)).
Proof.
  apply (run_orders_files posix_sep relpath_id broken_parse elements
           (λ s x, elem_of_elements s x) "" ["b.py"; "a.py"]).
  apply files_distinct_identities. by_computation.
Defined.

Lemma self_import_empties_the_run_witness :
  ∃ out c,
    get_sorted_files posix_sep relpath_id self_import_parse elements
      ["a.py"; "b.py"] "" = (Return [], out) ∧
    "Error: " +:+ cycle_message c ∈ out.
Proof.
  apply (self_import_empties_the_run posix_sep relpath_id self_import_parse elements
           (λ s x, elem_of_elements s x) "" ["a.py"; "b.py"] "a.py"
           [OtherNode; Import ["os"; "a"]] ["os"; "a"]).
  - apply files_distinct_identities. by_computation.
  - by_computation.
  - reflexivity.
  - apply elem_of_cons. right. apply elem_of_cons. by left.
  - by_computation.
Defined.

(** ** More on the sorter and the builder *)

Section MoreOnSorting.
Variable module_to_file : registry.
Variable dep_graph : graph.
Variable set_iter : gset string → list string.
Hypothesis set_iter_elem : ∀ s x, x ∈ set_iter s ↔ x ∈ s.

(** X15: in a returned order a module comes after everything it depends
    on through any chain of registered dependencies, not only after its
    direct dependencies. *)
Theorem transitive_dependencies_come_first l m d :
  _topological_sort module_to_file dep_graph set_iter = Return l →
  m ∈ keys module_to_file →
  tc (edge module_to_file dep_graph) m d →
  precedes d m l.
Proof.
  intros Hsort Hm Hpath.
  pose proof (topological_sort_post module_to_file dep_graph set_iter set_iter_elem)
    as Hpost.
  rewrite Hsort in Hpost. destruct Hpost as (_ & _ & Hord).
  by apply (order_follows_paths module_to_file dep_graph).
Qed.
End MoreOnSorting.

Lemma transitive_dependencies_come_first_witness :
  precedes "c" "a" ["c"; "b"; "a"].
Proof.
  apply (transitive_dependencies_come_first chain_registry chain_graph elements
           (λ s x, elem_of_elements s x) ["c"; "b"; "a"] "a" "c").
  - vm_compute. reflexivity.
  - by_computation.
  - apply tc_l with "b"; [|apply tc_once]; split; by_computation.
Defined.

Section MoreOnBuilding.
Variable module_to_file : registry.
Variable parse : extractor.

(** X14: extraction returns a set exactly for the files some key of the
    registry maps to; for any other file it raises [StopIteration] before
    the file is read, and prints nothing. *)
Theorem get_imports_needs_registered_file filepath :
  ((∃ k, (k, filepath) ∈ module_to_file)
   ↔ ∃ deps out,
       _get_imports_from_file module_to_file parse filepath = (Return deps, out)) ∧
  ((∀ k, (k, filepath) ∉ module_to_file)
   → _get_imports_from_file module_to_file parse filepath = (Raise StopIteration, [])).
Proof.
  split; [split|].
  - intros [k Hk]. destruct (next_key_registered _ _ _ Hk) as [k' Hk'].
    destruct (get_imports_returns module_to_file parse filepath k' Hk')
      as (deps & out & Hret & _). by exists deps, out.
  - intros (deps & out & Hret).
    destruct (next_key_cases module_to_file filepath) as [[k Hk]|[Hk _]].
    + exists k. by apply next_key_Return.
    + unfold _get_imports_from_file in Hret. rewrite Hk in Hret. discriminate.
  - intros Hno.
    destruct (next_key_cases module_to_file filepath) as [[k Hk]|[Hk _]].
    + apply next_key_Return in Hk. by destruct (Hno k).
    + unfold _get_imports_from_file. by rewrite Hk.
Qed.

(** X16: when every listed file is registered, the builder prints one
    warning for each listed file the extractor fails on, in the order of the
    list, and nothing else. *)
Theorem build_prints_warnings_in_file_order files :
  (∀ f, f ∈ files → ∃ k, (k, f) ∈ module_to_file) →
  ∃ g, _build_dependency_graph module_to_file parse files
       = (Return g, parse_warnings parse files).
Proof.
  unfold _build_dependency_graph. generalize (∅ : graph).
  induction files as [|f files IH]; intros g0 Hreg; [by exists g0|].
  rewrite build_loop_cons.
  destruct (Hreg f) as [k0 Hk0]; [apply elem_of_cons; by left|].
  destruct (next_key_registered _ _ _ Hk0) as [k Hk].
  rewrite Hk, bind_lift_Return.
  destruct (get_imports_returns module_to_file parse f k Hk)
    as (deps & out & -> & _ & Hcase).
  rewrite bind_Return.
  destruct (IH (<[k:=deps]> g0)) as [g ->].
  { intros f' Hf'. apply Hreg, elem_of_cons. by right. }
  exists g. simpl. destruct (parse f) as [e|nodes].
  - by destruct Hcase as [_ ->].
  - by destruct Hcase as [_ ->].
Qed.
End MoreOnBuilding.

Lemma get_imports_needs_registered_file_witness :
  ((∃ k, (k, "a/b.py") ∈ [("a.b", "a.b.py")])
   ↔ ∃ deps out,
       _get_imports_from_file [("a.b", "a.b.py")] no_imports "a/b.py"
       = (Return deps, out)) ∧
  ((∀ k, (k, "a/b.py") ∉ [("a.b", "a.b.py")])
   → _get_imports_from_file [("a.b", "a.b.py")] no_imports "a/b.py"
     = (Raise StopIteration, [])).
Proof.
  apply (get_imports_needs_registered_file [("a.b", "a.b.py")] no_imports "a/b.py").
Defined.

Lemma build_prints_warnings_in_file_order_witness :
  ∃ g, _build_dependency_graph
         (_build_module_mapping posix_sep relpath_id ["b.py"; "a.py"] "")
         broken_parse ["b.py"; "a.py"; "a.py"]
       = (Return g, parse_warnings broken_parse ["b.py"; "a.py"; "a.py"]).
Proof.
  apply (build_prints_warnings_in_file_order
           (_build_module_mapping posix_sep relpath_id ["b.py"; "a.py"] "")
           broken_parse ["b.py"; "a.py"; "a.py"]).
  intros f Hf%list_elem_of_In. simpl in Hf.
  destruct Hf as [<-|[<-|[<-|[]]]]; [exists "b"|exists "a"|exists "a"];
    by_computation.
Defined.

Section SortAgain.
Variable dep_graph : graph.
Variable set_iter : gset string → list string.
Hypothesis set_iter_elem : ∀ s x, x ∈ set_iter s ↔ x ∈ s.

(** X17: sorting is idempotent on orders: when the files are listed again
    in the order a sort returned, sorting the same graph returns that order
    unchanged. *)
Theorem sorting_a_sorted_order_again (module_to_file again : registry) l :
  _topological_sort module_to_file dep_graph set_iter = Return l →
  keys again = l →
  _topological_sort again dep_graph set_iter = Return l.
Proof.
  intros Hsort Hagain.
  pose proof (topological_sort_post module_to_file dep_graph set_iter set_iter_elem)
    as Hpost.
  rewrite Hsort in Hpost. destruct Hpost as (Hnd & Hall & Hord).
  unfold _topological_sort.
  destruct (modules_loop_sorted again dep_graph set_iter set_iter_elem)
    with (ks2 := keys again) (ks1 := @nil string) (st := SortState ∅ ∅ [])
    as (st & -> & Hout); [by rewrite Hagain| |done..|by rewrite Hout, Hagain].
  intros m d Hm Hd Hdep. rewrite Hagain in *. apply Hord.
  - by apply Hall.
  - split; [done|]. by apply Hall.
Qed.
End SortAgain.

Lemma sorting_a_sorted_order_again_witness :
  _topological_sort chain_registry_sorted chain_graph elements = Return ["c"; "b"; "a"].
Proof.
  apply (sorting_a_sorted_order_again chain_graph elements
           (λ s x, elem_of_elements s x) chain_registry chain_registry_sorted).
  - vm_compute. reflexivity.
  - reflexivity.
Defined.
